(** * W' balance: the depletion series and the match detector of WPrime.cpp

    A shallow embedding of [WPrime::setRide] and [MinWPrime::compute]
    (src/src/WPrime.cpp).

    Conventions of the embedding.
    - C++ [int] values are [Z]; the arithmetic of the source stays far from
      the 32-bit limits on the inputs considered, so no wrap-around is
      written out.
    - [double] values that only ever hold sums of integers ([totalBelowCP],
      [countBelowCP], [rtot]) are [Z]; the other doubles ([values],
      [xvalues], [minY], [maxY], a match's cost) are real numbers, that is,
      rounding is idealised away.  The one place where IEEE behaviour is the
      subject (the quotient [totalBelowCP/countBelowCP]) is embedded a
      second time over binary64 floats, in [Module IEEE].
    - [QVector<T> a(n)] is a list of [n] zeros read with [aget] and written
      with [aset]; a [for] loop over an index range is a [fold_left] of its
      body over that range; a loop with a compound condition is a
      structural recursion on a bound of its iteration count that tests the
      source's condition at every turn.
    - The Qwt spline is not code of this file: the pipeline takes
      [smoothed_value points i], the [int] the source obtains from
      [smoothed.value(i)], as a parameter. *)

From Stdlib Require Import ZArith List Bool Lia Reals Lra Sorted.
From Stdlib Require Import Floats Uint63.
Import ListNotations.
Local Open Scope Z_scope.

(* ------------------------------------------------------------------ *)
(** ** Constants (WPrime.cpp, lines 38-43) *)

Definition WprimeMultConst : R := 1.
Definition WprimeDecayPeriod : Z := 1200.
Definition E : R := 271828183 / 100000000.
Definition WprimeMatchSmoothing : Z := 25.
Definition WprimeMatchMinJoules : Z := 100.

(* ------------------------------------------------------------------ *)
(** ** Arrays and index ranges *)

(** [a[i]] and [a.at(i)]. *)
Definition aget {A : Type} (d : A) (a : list A) (i : Z) : A :=
  nth (Z.to_nat i) a d.

Fixpoint set_nth {A : Type} (n : nat) (v : A) (a : list A) : list A :=
  match a, n with
  | [], _ => []
  | _ :: t, O => v :: t
  | x :: t, S m => x :: set_nth m v t
  end.

(** [a[i] = v].  The source never writes outside the array. *)
Definition aset {A : Type} (a : list A) (i : Z) (v : A) : list A :=
  if i <? 0 then a else set_nth (Z.to_nat i) v a.

(** A loop body that is [a[i] = f i]. *)
Definition tabulate_step {A : Type} (f : Z -> A) (a : list A) (i : Z) : list A :=
  aset a i (f i).

(** [QVector<int> a(n)] and [QVector<double>::resize(n)] on an empty vector. *)
Definition zeros (n : Z) : list Z := repeat 0 (Z.to_nat n).
Definition rzeros (n : Z) : list R := repeat 0%R (Z.to_nat n).

(** The indices of [for (int i=0; i<n; i++)]. *)
Definition upto (n : Z) : list Z := map Z.of_nat (seq 0 (Z.to_nat n)).

(** The indices of [for (int i=hi; i>=lo; i--)]. *)
Definition down_to (hi lo : Z) : list Z :=
  map (fun k => hi - Z.of_nat k) (seq 0 (Z.to_nat (hi - lo + 1))).

(* ------------------------------------------------------------------ *)
(** ** Data *)

(** Modelled from the spec: [RideFilePoint] is declared in RideFile.h, which
    is not among the sources; a sample is (timestampSeconds: integer,
    powerWatts), and only [secs] and [watts] are read here. *)
Record RideFilePoint : Type := mkPoint { secs : Z; watts : Z }.

(** [QPointF(x, y)]. *)
Definition QPointF : Type := (Z * Z)%type.

(** Modelled from the spec: the zone configuration (Zones.h is not among the
    sources) exposes whichRange(date), getCP(range) and getWprime(range). *)
Record Zones : Type := mkZones
  { whichRange : Z -> Z; getCP : Z -> Z; getWprime : Z -> Z }.

(** Modelled from the spec: what [setRide] reads of a [RideFile]:
    [dataPoints()], [areDataPresent()->watts], [recIntSecs()],
    [context->athlete->zones()] (null or not) and [startTime().date()]. *)
Record RideFile : Type := mkRide
  { dataPoints : list RideFilePoint;
    wattsPresent : bool;
    recIntSecs : Z;
    zones : option Zones;
    startDate : Z }.

(** Modelled from the spec: [Match] is declared in WPrime.h, which is not
    among the sources: {start, stop, durationSeconds, costJoules}. *)
Record Match : Type := mkMatch { start : Z; stop : Z; msecs : Z; cost : R }.

(** The members of [class WPrime] that [setRide] writes. *)
Record WPrime : Type := mkWPrime
  { rideFile : option RideFile;
    values : list R;
    xvalues : list R;
    mvalues : list R;
    mxvalues : list R;
    matches : list Match;
    minY : R;
    maxY : R;
    CP : Z;
    WPRIME : Z;
    TAU : Z }.

(** [WPrime::WPrime()]: the vectors and the match list start empty; only
    [minY] and [maxY] are assigned, the thresholds are assigned by [setRide]
    before they are read. *)
Definition WPrime_new : WPrime :=
  mkWPrime None [] [] [] [] [] 0 0 0 0 0.

(* ------------------------------------------------------------------ *)
(** ** Step 1: the points handed to the spline (lines 75-94) *)

(** [for(int t=lp->secs+rec; t < p->secs; t += rec) points << QPointF(t,0)]:
    the times [t] of the loop, started at [t] with [fuel] turns left.  With
    a positive interval the bound given in [fill_gap] is never what ends the
    loop ([gap_times_closed]); with an interval of zero or less the source's
    loop does not end once entered, and the model is not meant for it. *)
Fixpoint gap_times (fuel : nat) (t stop_ rec : Z) : list Z :=
  match fuel with
  | O => []
  | S f => if t <? stop_ then t :: gap_times f (t + rec) stop_ rec else []
  end.

Definition fill_gap (lp p : RideFilePoint) (rec : Z) : list QPointF :=
  map (fun t => (t, 0))
      (gap_times (Z.to_nat (secs p - (secs lp + rec))) (secs lp + rec) (secs p) rec).

(** The state of the [foreach]: [points], [last] and [lp]. *)
Definition sample_step (rec : Z)
  (st : list QPointF * Z * option RideFilePoint) (p : RideFilePoint)
  : list QPointF * Z * option RideFilePoint :=
  let '(points, _, lp) := st in
  let points1 :=
    match lp with
    | Some l => points ++ fill_gap l p rec
    | None => points
    end in
  let points2 :=
    match lp with
    | Some l => if secs l <? secs p then points1 ++ [(secs p, watts p)] else points1
    | None => points1 ++ [(secs p, watts p)]
    end in
  (points2, secs p, Some p).

Definition collect_points (rec : Z) (ps : list RideFilePoint)
  : list QPointF * Z * option RideFilePoint :=
  fold_left (sample_step rec) ps ([], 0, None).

Definition points_of (rec : Z) (ps : list RideFilePoint) : list QPointF :=
  fst (fst (collect_points rec ps)).

Definition last_of (rec : Z) (ps : list RideFilePoint) : Z :=
  snd (fst (collect_points rec ps)).

(* ------------------------------------------------------------------ *)
(** ** CP and W' (lines 101-107) *)

Definition thresholds (input : RideFile) : Z * Z :=
  match zones input with
  | None => (250, 0)
  | Some z =>
      let zoneRange := whichRange z (startDate input) in
      (if 0 <=? zoneRange then getCP z zoneRange else 0,
       if 0 <=? zoneRange then getWprime z zoneRange else 0)
  end.

(* ------------------------------------------------------------------ *)
(** ** Watts above CP and the below-CP totals (lines 112-124) *)

Definition extract_step (series : Z -> Z) (cp : Z)
  (st : list Z * Z * Z) (i : Z) : list Z * Z * Z :=
  let '(inputArray, totalBelowCP, countBelowCP) := st in
  let value := series i in
  (aset inputArray i (if cp <? value then value - cp else 0),
   if value <? cp then totalBelowCP + value else totalBelowCP,
   if value <? cp then countBelowCP + 1 else countBelowCP).

Definition extract (series : Z -> Z) (cp last : Z) : list Z * Z * Z :=
  fold_left (extract_step series cp) (upto last) (zeros (last + 1), 0, 0).

Definition inputArray_of (series : Z -> Z) (cp last : Z) : list Z :=
  fst (fst (extract series cp last)).

(* ------------------------------------------------------------------ *)
(** ** TAU (lines 126-127) *)

Definition tau_raw (cp totalBelowCP countBelowCP : Z) : R :=
  546 * Rpower E (- (1 / 100) * (IZR cp - IZR totalBelowCP / IZR countBelowCP))
  + 316.

(** [TAU = int(TAU)] truncates a value that is above 316 ([TAU_at_least_316]),
    so the truncation is the integer part.  When [countBelowCP] is zero the
    source divides 0.0 by 0.0 and converts the resulting NaN to [int], which
    C++ leaves undefined: [int_of_nan] is whatever that conversion yields. *)
Definition compute_TAU (int_of_nan : Z) (cp totalBelowCP countBelowCP : Z) : Z :=
  if countBelowCP =? 0 then int_of_nan
  else Int_part (tau_raw cp totalBelowCP countBelowCP).

(* ------------------------------------------------------------------ *)
(** ** Step 2: the W' series (lines 134-157) *)

(** The term the loop adds at [j]. *)
Definition term (inputArray : list Z) (tau i j : Z) : R :=
  (IZR (aget 0%Z inputArray (i - j)%Z) * Rpower E (- (IZR j / IZR tau)))%R.

(** [for (int j=0; j<1200 && (i-j) > 0; j++) sumproduct += ...] *)
Fixpoint sumproduct_loop (fuel : nat) (inputArray : list Z) (tau i j : Z)
  (sumproduct : R) : R :=
  match fuel with
  | O => sumproduct
  | S f =>
      if (j <? 1200) && (0 <? i - j)
      then sumproduct_loop f inputArray tau i (j + 1)
             (sumproduct + term inputArray tau i j)
      else sumproduct
  end.

Definition sumproduct (inputArray : list Z) (tau i : Z) : R :=
  sumproduct_loop 1200 inputArray tau i 0 0.

Definition value_at (inputArray : list Z) (wprime tau i : Z) : R :=
  (IZR wprime - sumproduct inputArray tau i * WprimeMultConst)%R.

Definition deplete_step (inputArray : list Z) (wprime tau : Z)
  (st : list R * list R * R * R) (i : Z) : list R * list R * R * R :=
  let '(vs, xs, mn, mx) := st in
  let v := value_at inputArray wprime tau i in
  (aset vs i v,
   aset xs i (IZR i / 60)%R,
   if Rlt_dec v mn then v else mn,
   if Rlt_dec mx v then v else mx).

Definition deplete (inputArray : list Z) (wprime tau last : Z)
  : list R * list R * R * R :=
  fold_left (deplete_step inputArray wprime tau) (down_to last 0)
            (rzeros (last + 1), rzeros (last + 1), 0%R, 0%R).

(** The depletion series of a run with the thresholds given. *)
Definition depletion (series : Z -> Z) (cp wprime tau last : Z) : list R :=
  fst (fst (fst (deplete (inputArray_of series cp last) wprime tau last))).

(* ------------------------------------------------------------------ *)
(** ** Step 3: smoothing (lines 164-183) *)

Definition fill_step (series : Z -> Z) (st : list Z * list Z) (i : Z)
  : list Z * list Z :=
  let '(smoothArray, rawArray) := st in
  (aset smoothArray i (series i), aset rawArray i (series i)).

Definition fill_arrays (series : Z -> Z) (last : Z) : list Z * list Z :=
  fold_left (fill_step series) (upto last) (zeros (last + 1), zeros (last + 1)).

Definition rawArray_of (series : Z -> Z) (last : Z) : list Z :=
  snd (fill_arrays series last).

(** [for (int i=WprimeMatchSmoothing; i>0 && last-i >=0; i--)
       rtot += smoothArray[last-i];] *)
Fixpoint rtot_init_loop (fuel : nat) (smoothArray : list Z) (last i rtot : Z) : Z :=
  match fuel with
  | O => rtot
  | S f =>
      if (0 <? i) && (0 <=? last - i)
      then rtot_init_loop f smoothArray last (i - 1)
             (rtot + aget 0 smoothArray (last - i))
      else rtot
  end.

Definition rtot_init (smoothArray : list Z) (last : Z) : Z :=
  rtot_init_loop (Z.to_nat WprimeMatchSmoothing) smoothArray last
                 WprimeMatchSmoothing 0.

(** The body of [for (int i=last; i>=WprimeMatchSmoothing; i--)].  [rtot] is
    a double holding an integer, and the quotient is stored into an [int]:
    it is truncated toward zero. *)
Definition rolling_step (st : list Z * Z) (i : Z) : list Z * Z :=
  let '(smoothArray, rtot) := st in
  let here := aget 0 smoothArray i in
  let smoothArray' := aset smoothArray i (rtot ÷ WprimeMatchSmoothing) in
  (smoothArray', rtot - here + aget 0 smoothArray' (i - WprimeMatchSmoothing)).

Definition rolling (smoothArray : list Z) (last : Z) : list Z :=
  fst (fold_left rolling_step (down_to last WprimeMatchSmoothing)
                 (smoothArray, rtot_init smoothArray last)).

(** The smoothed array of a run: filled from the series, then rolled. *)
Definition smoothArray_of (series : Z -> Z) (last : Z) : list Z :=
  rolling (fst (fill_arrays series last)) last.

(* ------------------------------------------------------------------ *)
(** ** Step 3: matches (lines 187-222) *)

(** [while (end > match.start && rawArray[end] < CP) end--;] *)
Fixpoint scan_back (fuel : nat) (rawArray : list Z) (cp mstart end_ : Z) : Z :=
  match fuel with
  | O => end_
  | S f =>
      if (mstart <? end_) && (aget 0 rawArray end_ <? cp)
      then scan_back f rawArray cp mstart (end_ - 1)
      else end_
  end.

(** The state of the scan: [inmatch], [match.start] and [matches].  [match]
    is declared inside the loop body and has no initialiser; its [start]
    written when the match is entered is read in the later turn that leaves
    the match, as the spec describes the scan ("recording start = i"). *)
Definition scan_step (smoothArray rawArray : list Z) (vs : list R) (cp : Z)
  (st : bool * Z * list Match) (i : Z) : bool * Z * list Match :=
  let '(inmatch, mstart, ms) := st in
  let enter :=
    negb inmatch && ((cp <=? aget 0 smoothArray i) || (cp <=? aget 0 rawArray i)) in
  let inmatch1 := if enter then true else inmatch in
  let mstart1 := if enter then i else mstart in
  if inmatch1 && ((aget 0 smoothArray i <? cp) && (aget 0 rawArray i <? cp))
  then
    let end_ := scan_back (Z.to_nat (i - 1 - mstart1)) rawArray cp mstart1 (i - 1) in
    let ms1 :=
      if mstart1 <? end_
      then
        let c := (aget 0 vs mstart1 - aget 0 vs end_)%R in
        if Rle_dec (IZR WprimeMatchMinJoules) c
        then ms ++ [mkMatch mstart1 end_ (end_ - mstart1 + 1) c]
        else ms
      else ms in
    (false, mstart1, ms1)
  else (inmatch1, mstart1, ms).

Definition scan (smoothArray rawArray : list Z) (vs : list R) (cp last : Z)
  : bool * Z * list Match :=
  fold_left (scan_step smoothArray rawArray vs cp) (upto last) (false, 0, []).

Definition find_matches (smoothArray rawArray : list Z) (vs : list R)
  (cp last : Z) : list Match :=
  snd (scan smoothArray rawArray vs cp last).

(** The chart markers (lines 225-234). *)
Definition marker_step (vs xs : list R) (st : list R * list R) (m : Match)
  : list R * list R :=
  let '(mv, mx) := st in
  if Rle_dec 2000 (cost m)
  then (mv ++ [aget 0%R vs (start m); aget 0%R vs (stop m)],
        mx ++ [aget 0%R xs (start m); aget 0%R xs (stop m)])
  else (mv, mx).

(* ------------------------------------------------------------------ *)
(** ** [WPrime::setRide] *)

Section SetRide.

(** [smoothed_value points i] is [int(smoothed.value(i))] for the natural
    spline set on [points]. *)
Variable smoothed_value : list QPointF -> Z -> Z.

(** The [int] obtained from a NaN (see [compute_TAU]). *)
Variable int_of_nan : Z.

(** The dense series and its last second. *)
Definition series_of (ride : RideFile) : Z -> Z :=
  smoothed_value (points_of (recIntSecs ride) (dataPoints ride)).

Definition last_sec (ride : RideFile) : Z :=
  last_of (recIntSecs ride) (dataPoints ride).

(** Everything after the early return (lines 72-234). *)
Definition run (ride : RideFile) : WPrime :=
  let last := last_sec ride in
  let series := series_of ride in
  let cp := fst (thresholds ride) in
  let wprime := snd (thresholds ride) in
  let ex := extract series cp last in
  let inputArray := fst (fst ex) in
  let tau := compute_TAU int_of_nan cp (snd (fst ex)) (snd ex) in
  let dep := deplete inputArray wprime tau last in
  let vs := fst (fst (fst dep)) in
  let xs := snd (fst (fst dep)) in
  let arrays := fill_arrays series last in
  let smoothArray := rolling (fst arrays) last in
  let rawArray := snd arrays in
  let ms := find_matches smoothArray rawArray vs cp last in
  let markers := fold_left (marker_step vs xs) ms ([], []) in
  mkWPrime (Some ride) vs xs (fst markers) (snd markers) ms
           (snd (fst dep)) (snd dep) cp wprime tau.

Definition setRide (w : WPrime) (input : option RideFile) : WPrime :=
  (* lines 57-65: the reset *)
  let w0 := mkWPrime input [] [] (mvalues w) (mxvalues w) (matches w) 0 0 0 0 0 in
  match input with
  | None => w0
  | Some ride =>
      if (length (dataPoints ride) =? 0)%nat || negb (wattsPresent ride)
      then w0
      else run ride
  end.

(** [MinWPrime::compute]: a new [WPrime], [setRide], [setValue(w.minY/1000)]. *)
Definition MinWPrime_compute (r : option RideFile) : R :=
  (minY (setRide WPrime_new r) / 1000)%R.

End SetRide.

(** [MinWPrime::initialize] sets the precision, [canAggregate] is constant. *)
Definition MinWPrime_precision : Z := 1.
Definition MinWPrime_canAggregate : bool := false.

(* ------------------------------------------------------------------ *)
(** ** Rides used as examples *)

(** An interpolant for the examples: on a series with a knot at every whole
    second the spline returns the knot's ordinate at each second it is
    evaluated at, below the last. *)
Definition knot_value (points : list QPointF) (i : Z) : Z :=
  match find (fun q => fst q =? i) points with
  | Some q => snd q
  | None => 0
  end.

(** An interpolant that agrees with [knot_value] except at second 3. *)
Definition spiked_value (points : list QPointF) (i : Z) : Z :=
  if i =? 3 then 999 else knot_value points i.

(** Two seconds at 1000 W, then rest; no zone configuration (CP = 250). *)
Definition surge_ride : RideFile :=
  mkRide [mkPoint 0 1000; mkPoint 1 1000; mkPoint 2 0; mkPoint 3 0] true 1 None 0.

(** Rest at second 0, then 300 W up to the end; no zone configuration. *)
Definition steady_ride : RideFile :=
  mkRide [mkPoint 0 0; mkPoint 1 300; mkPoint 2 300; mkPoint 3 300] true 1 None 0.

(** [surge_ride] with another power at its final second. *)
Definition surge_ride_hot : RideFile :=
  mkRide [mkPoint 0 1000; mkPoint 1 1000; mkPoint 2 0; mkPoint 3 500] true 1 None 0.

(** 100 W at each of the seconds 0..25; no zone configuration. *)
Definition steady26_ride : RideFile :=
  mkRide (map (fun t => mkPoint t 100) (upto 26)) true 1 None 0.

(** Rest, then 300 W at the last second; no zone configuration. *)
Definition finish_ride : RideFile :=
  mkRide [mkPoint 0 0; mkPoint 1 0; mkPoint 2 300] true 1 None 0.

(** No power at all, with CP = 250 and W' = 20000 configured. *)
Definition rest_ride : RideFile :=
  mkRide [mkPoint 0 0; mkPoint 1 0; mkPoint 2 0] true 1
         (Some (mkZones (fun _ => 0) (fun _ => 250) (fun _ => 20000))) 0.

(* ------------------------------------------------------------------ *)
(** ** The below-CP mean over binary64 (lines 112-126) *)

Module IEEE.

(** The conversion of an [int] to [double]. *)
Definition float_of_int (z : Z) : float :=
  if z <? 0 then PrimFloat.opp (PrimFloat.of_uint63 (Uint63.of_Z (- z)))
  else PrimFloat.of_uint63 (Uint63.of_Z z).

Definition below_step (series : Z -> Z) (cp : Z) (st : float * float) (i : Z)
  : float * float :=
  let '(totalBelowCP, countBelowCP) := st in
  let value := series i in
  if value <? cp
  then (PrimFloat.add totalBelowCP (float_of_int value),
        PrimFloat.add countBelowCP PrimFloat.one)
  else (totalBelowCP, countBelowCP).

Definition below_totals (series : Z -> Z) (cp last : Z) : float * float :=
  fold_left (below_step series cp) (upto last) (PrimFloat.zero, PrimFloat.zero).

(** [totalBelowCP/countBelowCP]. *)
Definition belowMean (series : Z -> Z) (cp last : Z) : float :=
  let '(totalBelowCP, countBelowCP) := below_totals series cp last in
  PrimFloat.div totalBelowCP countBelowCP.

(** [-0.01*(CP - (totalBelowCP/countBelowCP))], the exponent handed to
    [pow]; the literal is the binary64 nearest to -0.01. *)
Definition tau_exponent (series : Z -> Z) (cp last : Z) : float :=
  PrimFloat.mul (-0x1.47ae147ae147bp-7)%float
                (PrimFloat.sub (float_of_int cp) (belowMean series cp last)).

End IEEE.

(* ------------------------------------------------------------------ *)
(** ** Definitions that follow the specification's words *)

(** [f 0 + f 1 + ... + f (n-1)]. *)
Fixpoint big_sum (n : nat) (f : nat -> R) : R :=
  match n with
  | O => 0%R
  | S m => (big_sum m f + f m)%R
  end.

(** The spec's excess: [max(0, series[k] - CP)] at every second. *)
Definition excess_spec (series : Z -> Z) (cp : Z) (k : Z) : Z :=
  Z.max 0 (series k - cp).

(** The excess the source builds: the same below [last], zero at [last]. *)
Definition excess_code (series : Z -> Z) (cp last : Z) (k : Z) : Z :=
  if k <? last then Z.max 0 (series k - cp) else 0.

(** The spec's depletion:
    [WPRIME - sum_{j=0}^{min(1200,i)-1} excess[i-j] * e^(-j/TAU)],
    [e] being the program's constant [E]. *)
Definition depletion_spec (excess : Z -> Z) (wprime tau : Z) (i : Z) : R :=
  (IZR wprime
   - big_sum (Z.to_nat (Z.min 1200 i))
       (fun j => IZR (excess (i - Z.of_nat j)%Z)
                 * Rpower E (- (IZR (Z.of_nat j) / IZR tau))))%R.

(** The sum of [a[lo] .. a[lo+n-1]]. *)
Fixpoint window_sum (a : list Z) (lo : Z) (n : nat) : Z :=
  match n with
  | O => 0
  | S m => aget 0 a lo + window_sum a (lo + 1) m
  end.

(** The spec's trailing mean of window [WprimeMatchSmoothing], in its two
    readings: the window that ends at [i], and the one that ends before [i]. *)
Definition trailing_mean_incl (raw : list Z) (i : Z) : Z :=
  window_sum raw (i - WprimeMatchSmoothing + 1) (Z.to_nat WprimeMatchSmoothing)
  ÷ WprimeMatchSmoothing.

Definition trailing_mean_excl (raw : list Z) (i : Z) : Z :=
  window_sum raw (i - WprimeMatchSmoothing) (Z.to_nat WprimeMatchSmoothing)
  ÷ WprimeMatchSmoothing.

(** The minimum of a series, the seed being used for the empty one. *)
Definition seeded_min (seed : R) (vs : list R) : R := fold_right Rmin seed vs.

(** The zero points between two samples in the spec's words: one at every
    multiple of the interval after [a] that lies strictly before [b]. *)
Definition zeros_between (a b rec : Z) : list QPointF :=
  map (fun k => (a + Z.of_nat k * rec, 0))
      (seq 1 (Z.to_nat ((b - a - 1) / rec))).

(** Acceptance in the spec's words: the first sample, and then every sample
    whose timestamp is strictly greater than the previous accepted one. *)
Fixpoint accepted_after (prev : Z) (ps : list RideFilePoint) : list RideFilePoint :=
  match ps with
  | [] => []
  | p :: t =>
      if prev <? secs p then p :: accepted_after (secs p) t
      else accepted_after prev t
  end.

Definition accepted_spec (ps : list RideFilePoint) : list RideFilePoint :=
  match ps with
  | [] => []
  | p :: t => p :: accepted_after (secs p) t
  end.

(** What holds of a match emitted by the scan of the seconds below [n]:
    the spec's Match invariant, and the second [i] that closed it. *)
Definition match_ok (smoothArray rawArray : list Z) (vs : list R) (cp n : Z)
  (m : Match) : Prop :=
  0 <= start m
  /\ start m < stop m
  /\ msecs m = stop m - start m + 1
  /\ (IZR WprimeMatchMinJoules <= cost m)%R
  /\ cost m = (aget 0%R vs (start m) - aget 0%R vs (stop m))%R
  /\ cp <= aget 0 rawArray (stop m)
  /\ aget 0 rawArray (stop m + 1) < cp
  /\ exists i, stop m < i < n
               /\ aget 0 smoothArray i < cp /\ aget 0 rawArray i < cp.

(** The invariant of the scan before second [n]. *)
Definition scan_inv (smoothArray rawArray : list Z) (vs : list R) (cp n : Z)
  (st : bool * Z * list Match) : Prop :=
  (fst (fst st) = true -> 0 <= snd (fst st) < n)
  /\ Forall (match_ok smoothArray rawArray vs cp n) (snd st).

(** An interpolant returns the ordinate of a knot at the knot's abscissa. *)
Definition passes_through_knots (sv : list QPointF -> Z -> Z) : Prop :=
  forall points t y,
    NoDup (map fst points) -> In (t, y) points -> sv points t = y.

(** The minimum of a non-empty series. *)
Definition series_min (vs : list R) : R :=
  match vs with
  | [] => 0%R
  | v :: t => fold_right Rmin v t
  end.

(* ------------------------------------------------------------------ *)
(** ** Predicates used by the further properties *)

(** The maximum counterpart of [seeded_min]. *)
Definition seeded_max (seed : R) (vs : list R) : R := fold_right Rmax seed vs.

(** The exit condition of the scan at second [k]. *)
Definition both_below (smoothArray rawArray : list Z) (cp k : Z) : Prop :=
  aget 0 smoothArray k < cp /\ aget 0 rawArray k < cp.

(** The edges of a match emitted by the scan of the seconds below [n]. *)
Definition match_edges (smoothArray rawArray : list Z) (cp n : Z) (m : Match)
  : Prop :=
  0 <= start m
  /\ ~ both_below smoothArray rawArray cp (start m)
  /\ (0 < start m -> both_below smoothArray rawArray cp (start m - 1))
  /\ exists i, stop m < i < n
               /\ both_below smoothArray rawArray cp i
               /\ (forall k, start m <= k < i -> ~ both_below smoothArray rawArray cp k)
               /\ (forall k, stop m < k <= i -> aget 0 rawArray k < cp).

(** One match ends before the other starts. *)
Definition before (a b : Match) : Prop := stop a < start b.

(** The invariant of the scan before second [n] behind the edges and the
    order of the matches. *)
Definition scan_edges_inv (smoothArray rawArray : list Z) (cp n : Z)
  (st : bool * Z * list Match) : Prop :=
  let '(inmatch, mstart, ms) := st in
  (if inmatch
   then 0 <= mstart < n
        /\ ~ both_below smoothArray rawArray cp mstart
        /\ (0 < mstart -> both_below smoothArray rawArray cp (mstart - 1))
        /\ (forall k, mstart <= k < n -> ~ both_below smoothArray rawArray cp k)
        /\ Forall (fun m => stop m < mstart) ms
   else (0 < n -> both_below smoothArray rawArray cp (n - 1))
        /\ Forall (fun m => stop m < n) ms)
  /\ StronglySorted before ms
  /\ Forall (match_edges smoothArray rawArray cp n) ms.

(** The marker series in closed form: two entries for every match that
    costs 2000 J or more. *)
Definition marker_values (f : Z -> R) (ms : list Match) : list R :=
  flat_map (fun m => if Rle_dec 2000 (cost m) then [f (start m); f (stop m)] else [])
           ms.

(** Samples that follow [prev] in strictly increasing time, each at most one
    recording interval after the one before. *)
Fixpoint paced (rec prev : Z) (ps : list RideFilePoint) : Prop :=
  match ps with
  | [] => True
  | p :: t => prev < secs p <= prev + rec /\ paced rec (secs p) t
  end.

(** The point of a sample. *)
Definition point_of (p : RideFilePoint) : QPointF := (secs p, watts p).

(** 100 W throughout, with a zone configuration that has no range for the
    date of the ride. *)
Definition unzoned_ride : RideFile :=
  mkRide [mkPoint 0 100; mkPoint 1 100; mkPoint 2 100] true 1
         (Some (mkZones (fun _ => -1) (fun _ => 300) (fun _ => 20000))) 0.

(* ================================================================== *)
(** * Properties *)

(* ------------------------------------------------------------------ *)
(** ** Arrays *)

Section Arrays.

Context {A : Type}.
Variable d : A.

Lemma length_set_nth (n : nat) (v : A) (a : list A) :
  length (set_nth n v a) = length a.
Proof.
  revert n; induction a as [|x t IH]; intros [|n]; simpl; auto.
Qed.

Lemma nth_set_nth_eq (n : nat) (v : A) (a : list A) :
  (n < length a)%nat -> nth n (set_nth n v a) d = v.
Proof.
  revert n; induction a as [|x t IH]; intros [|n] H; simpl in *; try lia; auto.
  apply IH; lia.
Qed.

Lemma nth_set_nth_neq (n m : nat) (v : A) (a : list A) :
  n <> m -> nth m (set_nth n v a) d = nth m a d.
Proof.
  revert n m; induction a as [|x t IH]; intros [|n] [|m] H; simpl; auto; try lia.
Qed.

Lemma length_aset (a : list A) (i : Z) (v : A) : length (aset a i v) = length a.
Proof.
  unfold aset; destruct (i <? 0); auto using length_set_nth.
Qed.

Lemma aget_aset_eq (a : list A) (i : Z) (v : A) :
  0 <= i < Z.of_nat (length a) -> aget d (aset a i v) i = v.
Proof.
  intros H; unfold aget, aset.
  destruct (Z.ltb_spec i 0); [lia|].
  apply nth_set_nth_eq; lia.
Qed.

Lemma aget_aset_neq (a : list A) (i j : Z) (v : A) :
  0 <= j -> i <> j -> aget d (aset a i v) j = aget d a j.
Proof.
  intros Hj Hij; unfold aget, aset.
  destruct (Z.ltb_spec i 0); [reflexivity|].
  apply nth_set_nth_neq; lia.
Qed.

Lemma length_tabulate (f : Z -> A) (l : list Z) (a : list A) :
  length (fold_left (tabulate_step f) l a) = length a.
Proof.
  revert a; induction l as [|x l IH]; intros a; simpl; auto.
  rewrite IH; apply length_aset.
Qed.

Lemma aget_tabulate_out (f : Z -> A) (l : list Z) (a : list A) (j : Z) :
  0 <= j -> ~ In j l ->
  aget d (fold_left (tabulate_step f) l a) j = aget d a j.
Proof.
  intros Hj; revert a; induction l as [|x l IH]; intros a Hn; simpl; auto.
  rewrite IH by (intros H; apply Hn; right; exact H).
  apply aget_aset_neq; auto.
  intros ->; apply Hn; left; reflexivity.
Qed.

Lemma aget_tabulate_in (f : Z -> A) (l : list Z) (a : list A) (j : Z) :
  0 <= j < Z.of_nat (length a) -> In j l ->
  aget d (fold_left (tabulate_step f) l a) j = f j.
Proof.
  intros Hj; revert a Hj; induction l as [|x l IH]; intros a Hj Hin; simpl.
  - destruct Hin.
  - destruct (in_dec Z.eq_dec j l) as [Hl|Hl].
    + apply IH; auto. unfold tabulate_step; rewrite length_aset; exact Hj.
    + destruct Hin as [->|Hin]; [|contradiction].
      rewrite aget_tabulate_out by (auto; lia).
      apply aget_aset_eq; exact Hj.
Qed.

End Arrays.

Lemma in_upto (n i : Z) : In i (upto n) <-> 0 <= i < n.
Proof.
  unfold upto; rewrite in_map_iff; split.
  - intros (k & <- & Hk); apply in_seq in Hk; lia.
  - intros H; exists (Z.to_nat i); split; [lia|apply in_seq; lia].
Qed.

Lemma in_down_to (hi lo i : Z) : In i (down_to hi lo) <-> lo <= i <= hi.
Proof.
  unfold down_to; rewrite in_map_iff; split.
  - intros (k & <- & Hk); apply in_seq in Hk; lia.
  - intros H; exists (Z.to_nat (hi - i)); split; [lia|apply in_seq; lia].
Qed.

Lemma upto_succ (n : Z) : 0 <= n -> upto (n + 1) = upto n ++ [n].
Proof.
  intros H; unfold upto.
  replace (Z.to_nat (n + 1)) with (Z.to_nat n + 1)%nat by lia.
  rewrite seq_app, map_app; simpl.
  rewrite Z2Nat.id by lia; reflexivity.
Qed.

Lemma aget_zeros (n i : Z) : aget 0 (zeros n) i = 0.
Proof.
  unfold aget, zeros.
  destruct (Nat.lt_ge_cases (Z.to_nat i) (Z.to_nat n)) as [H|H].
  - apply nth_repeat_lt; exact H.
  - apply nth_overflow; rewrite repeat_length; exact H.
Qed.

Lemma length_zeros (n : Z) : Z.of_nat (length (zeros n)) = Z.max 0 n.
Proof. unfold zeros; rewrite repeat_length; lia. Qed.

Lemma length_rzeros (n : Z) : Z.of_nat (length (rzeros n)) = Z.max 0 n.
Proof. unfold rzeros; rewrite repeat_length; lia. Qed.

(* ------------------------------------------------------------------ *)
(** ** The excess array *)

Lemma extract_inputArray (series : Z -> Z) (cp : Z) (l : list Z) (st : list Z * Z * Z) :
  fst (fst (fold_left (extract_step series cp) l st))
  = fold_left
      (tabulate_step (fun i => if cp <? series i then series i - cp else 0))
      l (fst (fst st)).
Proof.
  revert st; induction l as [|x l IH]; intros [[a t] c]; [reflexivity|].
  simpl; rewrite IH; reflexivity.
Qed.

Lemma inputArray_of_eq (series : Z -> Z) (cp last : Z) :
  inputArray_of series cp last
  = fold_left
      (tabulate_step (fun i => if cp <? series i then series i - cp else 0))
      (upto last) (zeros (last + 1)).
Proof. unfold inputArray_of, extract; rewrite extract_inputArray; reflexivity. Qed.

Lemma length_inputArray (series : Z -> Z) (cp last : Z) :
  Z.of_nat (length (inputArray_of series cp last)) = Z.max 0 (last + 1).
Proof. rewrite inputArray_of_eq, length_tabulate; apply length_zeros. Qed.

Lemma aget_inputArray (series : Z -> Z) (cp last k : Z) :
  0 <= k -> aget 0 (inputArray_of series cp last) k = excess_code series cp last k.
Proof.
  intros Hk; rewrite inputArray_of_eq; unfold excess_code.
  destruct (Z.ltb_spec k last) as [H|H].
  - rewrite aget_tabulate_in.
    + destruct (Z.ltb_spec cp (series k)); lia.
    + rewrite length_zeros; lia.
    + apply in_upto; lia.
  - rewrite aget_tabulate_out; [apply aget_zeros|lia|].
    rewrite in_upto; lia.
Qed.

(* ------------------------------------------------------------------ *)
(** ** The sum of products *)

Lemma big_sum_ext (n : nat) (f g : nat -> R) :
  (forall k, (k < n)%nat -> f k = g k) -> big_sum n f = big_sum n g.
Proof.
  induction n as [|n IH]; intros H; simpl; auto.
  rewrite IH, H; auto.
Qed.

Lemma big_sum_shift (n : nat) (f : nat -> R) :
  big_sum (S n) f = (f O + big_sum n (fun k => f (S k)))%R.
Proof.
  induction n as [|n IH].
  - simpl; lra.
  - change (big_sum (S (S n)) f) with (big_sum (S n) f + f (S n))%R.
    rewrite IH; simpl; lra.
Qed.

Lemma sumproduct_loop_sum (fuel : nat) (inputArray : list Z) (tau i : Z) :
  forall (j : Z) (acc : R),
    0 <= j ->
    sumproduct_loop fuel inputArray tau i j acc
    = (acc + big_sum (Z.to_nat (Z.min (Z.of_nat fuel) (Z.min 1200 i - j)))
               (fun k => term inputArray tau i (j + Z.of_nat k)))%R.
Proof.
  induction fuel as [|fuel IH]; intros j acc Hj.
  - replace (Z.to_nat _) with O by lia. simpl; lra.
  - cbn [sumproduct_loop].
    destruct (Z.ltb_spec j 1200) as [H1|H1];
      destruct (Z.ltb_spec 0 (i - j)) as [H2|H2]; cbn [andb];
      try (replace (Z.to_nat _) with O by lia; simpl; lra).
    rewrite IH by lia.
    replace (Z.to_nat (Z.min (Z.of_nat (S fuel)) (Z.min 1200 i - j)))
      with (S (Z.to_nat (Z.min (Z.of_nat fuel) (Z.min 1200 i - (j + 1))))) by lia.
    rewrite big_sum_shift.
    replace (j + Z.of_nat 0) with j by lia.
    rewrite Rplus_assoc; f_equal; f_equal.
    apply big_sum_ext; intros k _; f_equal; lia.
Qed.

Lemma sumproduct_sum (inputArray : list Z) (tau i : Z) :
  sumproduct inputArray tau i
  = big_sum (Z.to_nat (Z.min 1200 i)) (fun k => term inputArray tau i (Z.of_nat k)).
Proof.
  unfold sumproduct; rewrite sumproduct_loop_sum by lia.
  rewrite Rplus_0_l.
  replace (Z.to_nat (Z.min (Z.of_nat 1200) (Z.min 1200 i - 0)))
    with (Z.to_nat (Z.min 1200 i)) by lia.
  apply big_sum_ext; intros k _; f_equal.
Qed.

(* ------------------------------------------------------------------ *)
(** ** The depletion series *)

Lemma deplete_values (inputArray : list Z) (wprime tau : Z) (l : list Z)
  (st : list R * list R * R * R) :
  fst (fst (fst (fold_left (deplete_step inputArray wprime tau) l st)))
  = fold_left (tabulate_step (value_at inputArray wprime tau)) l (fst (fst (fst st))).
Proof.
  revert st; induction l as [|x l IH]; intros [[[vs xs] mn] mx]; [reflexivity|].
  simpl; rewrite IH; reflexivity.
Qed.

Lemma length_deplete_values (inputArray : list Z) (wprime tau last : Z) :
  Z.of_nat (length (fst (fst (fst (deplete inputArray wprime tau last)))))
  = Z.max 0 (last + 1).
Proof.
  unfold deplete; rewrite deplete_values, length_tabulate; apply length_rzeros.
Qed.

Lemma aget_deplete_values (inputArray : list Z) (wprime tau last i : Z) :
  0 <= i <= last ->
  aget 0%R (fst (fst (fst (deplete inputArray wprime tau last)))) i
  = value_at inputArray wprime tau i.
Proof.
  intros H; unfold deplete; rewrite deplete_values.
  apply aget_tabulate_in.
  - cbn [fst]; rewrite length_rzeros; lia.
  - apply in_down_to; lia.
Qed.

Lemma E_pos : (0 < E)%R.
Proof. unfold E; lra. Qed.

Lemma decay_at_0 (tau : Z) : Rpower E (- (IZR 0 / IZR tau)) = 1%R.
Proof.
  replace (- (IZR 0 / IZR tau))%R with 0%R by (unfold Rdiv; ring).
  apply Rpower_O, E_pos.
Qed.

Lemma depletion_sum (series : Z -> Z) (cp wprime tau last i : Z) :
  0 <= i <= last ->
  aget 0%R (depletion series cp wprime tau last) i
  = depletion_spec (excess_code series cp last) wprime tau i.
Proof.
  intros H; unfold depletion.
  rewrite aget_deplete_values by exact H.
  unfold value_at, depletion_spec, WprimeMultConst.
  rewrite sumproduct_sum, Rmult_1_r; f_equal.
  apply big_sum_ext; intros k Hk; unfold term.
  rewrite aget_inputArray by lia; reflexivity.
Qed.

(* ------------------------------------------------------------------ *)
(** ** The points handed to the spline *)

Lemma gap_times_closed (fuel : nat) (stop_ rec : Z) :
  0 < rec ->
  forall t,
    (Z.to_nat (stop_ - t) <= fuel)%nat ->
    gap_times fuel t stop_ rec
    = map (fun k => t + Z.of_nat k * rec)
          (seq 0 (Z.to_nat ((stop_ - t + rec - 1) / rec))).
Proof.
  intros Hrec; induction fuel as [|fuel IH]; intros t Hf.
  - assert (Hq : (stop_ - t + rec - 1) / rec < 1)
      by (apply Z.div_lt_upper_bound; lia).
    replace (Z.to_nat _) with O by lia; reflexivity.
  - cbn [gap_times]; destruct (Z.ltb_spec t stop_) as [Hlt|Hge].
    + rewrite IH by lia.
      replace (stop_ - t + rec - 1) with (stop_ - (t + rec) + rec - 1 + 1 * rec) by lia.
      rewrite Z.div_add by lia.
      assert (Hq : 0 <= (stop_ - (t + rec) + rec - 1) / rec)
        by (apply Z.div_pos; lia).
      replace (Z.to_nat ((stop_ - (t + rec) + rec - 1) / rec + 1))
        with (S (Z.to_nat ((stop_ - (t + rec) + rec - 1) / rec))) by lia.
      cbn [seq map]; f_equal; [lia|].
      rewrite <- seq_shift, map_map.
      apply map_ext; intros k; lia.
    + assert (Hq : (stop_ - t + rec - 1) / rec < 1)
        by (apply Z.div_lt_upper_bound; lia).
      replace (Z.to_nat _) with O by lia; reflexivity.
Qed.

Lemma fill_gap_closed (lp p : RideFilePoint) (rec : Z) :
  0 < rec -> fill_gap lp p rec = zeros_between (secs lp) (secs p) rec.
Proof.
  intros Hrec; unfold fill_gap, zeros_between.
  rewrite gap_times_closed by lia.
  replace (secs p - (secs lp + rec) + rec - 1) with (secs p - secs lp - 1) by lia.
  rewrite <- seq_shift, !map_map.
  apply map_ext; intros k; f_equal; lia.
Qed.

Lemma collect_snoc (rec : Z) (ps : list RideFilePoint) (p : RideFilePoint)
  (st : list QPointF * Z * option RideFilePoint) :
  fold_left (sample_step rec) (ps ++ [p]) st
  = sample_step rec (fold_left (sample_step rec) ps st) p.
Proof. rewrite fold_left_app; reflexivity. Qed.

Lemma sample_step_state (rec : Z) (st : list QPointF * Z * option RideFilePoint)
  (p : RideFilePoint) :
  snd (fst (sample_step rec st p)) = secs p /\ snd (sample_step rec st p) = Some p.
Proof. destruct st as [[pts l] lp]; split; reflexivity. Qed.

Lemma collect_grows (rec : Z) (ps : list RideFilePoint)
  (st : list QPointF * Z * option RideFilePoint) :
  exists l2, fst (fst (fold_left (sample_step rec) ps st)) = fst (fst st) ++ l2.
Proof.
  revert st; induction ps as [|p ps IH]; intros st.
  - exists []; simpl; rewrite app_nil_r; reflexivity.
  - simpl; destruct (IH (sample_step rec st p)) as [l2 ->].
    destruct st as [[pts l] [lp|]]; cbn [sample_step fst].
    + destruct (secs lp <? secs p); eexists; rewrite <- ?app_assoc; reflexivity.
    + eexists; rewrite <- ?app_assoc; reflexivity.
Qed.

(** After a sample and any number of samples at its very second, [lp] is at
    that second. *)
Lemma collect_lp (rec : Z) (pre : list RideFilePoint) (prev : RideFilePoint)
  (dups : list RideFilePoint) (st : list QPointF * Z * option RideFilePoint) :
  Forall (fun q => secs q = secs prev) dups ->
  exists x, snd (fold_left (sample_step rec) (pre ++ prev :: dups) st) = Some x
            /\ secs x = secs prev.
Proof.
  intros Hd.
  destruct (exists_last (l := prev :: dups)) as (l' & x & Hl); [discriminate|].
  assert (Hx : secs x = secs prev).
  { assert (Hin : In x (prev :: dups)) by (rewrite Hl; apply in_or_app; right; left; reflexivity).
    destruct Hin as [<-|Hin]; [reflexivity|].
    rewrite Forall_forall in Hd; apply Hd; exact Hin. }
  exists x; split; [|exact Hx].
  rewrite Hl, app_assoc, collect_snoc.
  apply sample_step_state.
Qed.

Lemma in_zeros_between (a b rec : Z) (q : QPointF) :
  0 < rec ->
  In q (zeros_between a b rec)
  <-> exists k, 1 <= k /\ a + k * rec < b /\ q = (a + k * rec, 0).
Proof.
  intros Hrec; unfold zeros_between; rewrite in_map_iff; split.
  - intros (k & <- & Hk); apply in_seq in Hk.
    exists (Z.of_nat k); repeat split; [lia|].
    assert (Hle : Z.of_nat k <= (b - a - 1) / rec) by lia.
    pose proof (Z.mul_div_le (b - a - 1) rec Hrec); nia.
  - intros (k & Hk & Hlt & ->).
    assert (Hle : k <= (b - a - 1) / rec) by (apply Z.div_le_lower_bound; lia).
    exists (Z.to_nat k); split; [f_equal; lia|apply in_seq; lia].
Qed.

Lemma points_of_gap (rec : Z) (pre : list RideFilePoint) (prev : RideFilePoint)
  (dups : list RideFilePoint) (cur : RideFilePoint) (post : list RideFilePoint) :
  0 < rec ->
  Forall (fun q => secs q = secs prev) dups ->
  rec < secs cur - secs prev ->
  exists l1 l2,
    points_of rec (pre ++ prev :: dups ++ cur :: post)
    = l1 ++ zeros_between (secs prev) (secs cur) rec ++ (secs cur, watts cur) :: l2.
Proof.
  intros Hrec Hd Hgap; unfold points_of, collect_points.
  replace (pre ++ prev :: dups ++ cur :: post)
    with ((pre ++ prev :: dups) ++ cur :: post)
    by (rewrite <- app_assoc; reflexivity).
  rewrite fold_left_app; cbn [fold_left].
  destruct (collect_lp rec pre prev dups ([], 0, None) Hd) as (x & Hlp & Hx).
  destruct (fold_left (sample_step rec) (pre ++ prev :: dups) ([], 0, None))
    as [[pts l] lp] eqn:Hst.
  cbn [snd] in Hlp; subst lp.
  destruct (collect_grows rec post (sample_step rec (pts, l, Some x) cur)) as [l2 ->].
  cbn [sample_step fst].
  destruct (Z.ltb_spec (secs x) (secs cur)) as [_|Hge]; [|lia].
  rewrite fill_gap_closed, Hx by exact Hrec.
  exists pts, l2; rewrite <- !app_assoc; reflexivity.
Qed.

Lemma knot_value_passes : passes_through_knots knot_value.
Proof.
  intros points t y; unfold knot_value.
  induction points as [|[t' y'] ps IH]; intros Hnd Hin; [destruct Hin|].
  cbn [find fst]; inversion Hnd as [|? ? Hn Hnd']; subst.
  destruct (Z.eqb_spec t' t) as [->|Hne].
  - destruct Hin as [Heq|Hin]; [inversion Heq; reflexivity|].
    exfalso; apply Hn; change t with (fst (t, y)); apply in_map; exact Hin.
  - destruct Hin as [Heq|Hin]; [inversion Heq; congruence|].
    apply IH; assumption.
Qed.

(** C8 at the samples timed 0, 10, 2, 20 (interval 5): the sample at 2 is
    dropped, but the gap before the sample at 20 is filled from it, so the
    zero points after the accepted sample at 10 are at 7, 12 and 17; there is
    none at 15, the one multiple of the interval strictly between the accepted
    samples at 10 and 20. *)
Theorem gap_fill_starts_at_a_dropped_sample :
  let ps := [mkPoint 0 100; mkPoint 10 100; mkPoint 2 100; mkPoint 20 100] in
  points_of 5 ps
  = [(0, 100); (5, 0); (10, 100); (7, 0); (12, 0); (17, 0); (20, 100)]
  /\ accepted_spec ps = [mkPoint 0 100; mkPoint 10 100; mkPoint 20 100]
  /\ zeros_between 10 20 5 = [(15, 0)]
  /\ ~ In (15, 0) (points_of 5 ps).
Proof.
  cbv zeta; split; [reflexivity|split; [reflexivity|split; [reflexivity|]]].
  change (points_of 5 [mkPoint 0 100; mkPoint 10 100; mkPoint 2 100; mkPoint 20 100])
    with [(0, 100); (5, 0); (10, 100); (7, 0); (12, 0); (17, 0); (20, 100)].
  cbn [In]; intros H.
  repeat (destruct H as [H|H]; [discriminate H|]); exact H.
Qed.

(** X14: for a positive recording interval, when a sample [prev] is followed
    (after any number of samples at [prev]'s own second) by a sample [cur]
    more than one interval later, the points handed to the spline contain
    [cur]'s point, immediately preceded by zero points at exactly the
    multiples of the interval after [prev] that lie strictly before [cur],
    in order. *)
Theorem zero_points_before_the_next_sample (rec : Z)
  (pre : list RideFilePoint) (prev : RideFilePoint) (dups : list RideFilePoint)
  (cur : RideFilePoint) (post : list RideFilePoint) :
  0 < rec ->
  Forall (fun q => secs q = secs prev) dups ->
  rec < secs cur - secs prev ->
  (exists l1 l2,
      points_of rec (pre ++ prev :: dups ++ cur :: post)
      = l1 ++ zeros_between (secs prev) (secs cur) rec ++ (secs cur, watts cur) :: l2)
  /\ (forall q,
        In q (zeros_between (secs prev) (secs cur) rec)
        <-> exists k, 1 <= k /\ secs prev + k * rec < secs cur
                      /\ q = (secs prev + k * rec, 0)).
Proof.
  intros Hrec Hd Hgap; split.
  - apply points_of_gap; assumption.
  - intros q; apply in_zeros_between; exact Hrec.
Qed.

Lemma zero_points_before_the_next_sample_witness :
  0 < 1
  /\ Forall (fun q => secs q = secs (mkPoint 0 100)) [mkPoint 0 90]
  /\ 1 < secs (mkPoint 5 100) - secs (mkPoint 0 100)
  /\ points_of 1 [mkPoint 0 100; mkPoint 0 90; mkPoint 5 100]
     = [(0, 100); (1, 0); (2, 0); (3, 0); (4, 0); (5, 100)]
  /\ (exists l1 l2,
         points_of 1 ([] ++ mkPoint 0 100 :: [mkPoint 0 90] ++ mkPoint 5 100 :: [])
         = l1 ++ zeros_between 0 5 1 ++ (5, 100) :: l2).
Proof.
  assert (H1 : 0 < 1) by lia.
  assert (H2 : Forall (fun q => secs q = secs (mkPoint 0 100)) [mkPoint 0 90])
    by (repeat constructor).
  assert (H3 : 1 < secs (mkPoint 5 100) - secs (mkPoint 0 100)) by (simpl; lia).
  pose proof (zero_points_before_the_next_sample 1 [] (mkPoint 0 100) [mkPoint 0 90]
                (mkPoint 5 100) [] H1 H2 H3) as (Ha & _).
  split; [exact H1|split; [exact H2|split; [exact H3|split; [reflexivity|exact Ha]]]].
Defined.

Lemma last_of_snoc (rec : Z) (ps : list RideFilePoint) (p : RideFilePoint) :
  last_of rec (ps ++ [p]) = secs p.
Proof.
  unfold last_of, collect_points; rewrite collect_snoc.
  apply sample_step_state.
Qed.

(** C7 at the samples timed 0, 10, 5, 7 (interval 5): the sample at 5 is
    dropped, but it becomes the sample the next one is compared with, so the
    sample at 7 is accepted although 10 was accepted before it, and [last]
    is 7, not 10.  The spec's rule accepts the samples at 0 and 10 only. *)
Theorem acceptance_compares_with_previous_sample :
  let ps := [mkPoint 0 100; mkPoint 10 200; mkPoint 5 300; mkPoint 7 400] in
  points_of 5 ps = [(0, 100); (5, 0); (10, 200); (7, 400)]
  /\ last_of 5 ps = 7
  /\ accepted_spec ps = [mkPoint 0 100; mkPoint 10 200]
  /\ Z.of_nat (length (depletion (knot_value (points_of 5 ps)) 250 0 400 (last_of 5 ps)))
     = 8.
Proof.
  cbv zeta; repeat split; reflexivity.
Qed.

(* ------------------------------------------------------------------ *)
(** ** The rolling average *)

Lemma window_sum_snoc (a : list Z) (n : nat) :
  forall lo, window_sum a lo (S n) = window_sum a lo n + aget 0 a (lo + Z.of_nat n).
Proof.
  induction n as [|n IH]; intros lo.
  - cbn [window_sum]; replace (lo + Z.of_nat 0) with lo by lia; lia.
  - change (window_sum a lo (S (S n)))
      with (aget 0 a lo + window_sum a (lo + 1) (S n)).
    rewrite IH; cbn [window_sum].
    replace (lo + 1 + Z.of_nat n) with (lo + Z.of_nat (S n)) by lia; lia.
Qed.

Lemma window_sum_shift (a : list Z) (lo : Z) (n : nat) :
  window_sum a (lo + 1) (S n)
  = window_sum a lo (S n) - aget 0 a lo + aget 0 a (lo + 1 + Z.of_nat n).
Proof.
  rewrite window_sum_snoc.
  change (window_sum a lo (S n)) with (aget 0 a lo + window_sum a (lo + 1) n).
  lia.
Qed.

Lemma rtot_init_loop_sum (a : list Z) (last : Z) (fuel : nat) :
  forall rtot,
    0 <= last - Z.of_nat fuel ->
    rtot_init_loop fuel a last (Z.of_nat fuel) rtot
    = rtot + window_sum a (last - Z.of_nat fuel) fuel.
Proof.
  induction fuel as [|fuel IH]; intros rtot H; cbn [rtot_init_loop window_sum]; [lia|].
  destruct (Z.ltb_spec 0 (Z.of_nat (S fuel))) as [_|H1]; [|lia].
  destruct (Z.leb_spec 0 (last - Z.of_nat (S fuel))) as [_|H2]; [|lia].
  cbn [andb].
  replace (Z.of_nat (S fuel) - 1) with (Z.of_nat fuel) by lia.
  rewrite IH by lia.
  replace (last - Z.of_nat (S fuel) + 1) with (last - Z.of_nat fuel) by lia; lia.
Qed.

Lemma rtot_init_sum (a : list Z) (last : Z) :
  WprimeMatchSmoothing <= last ->
  rtot_init a last = window_sum a (last - 25) 25.
Proof.
  intros H; unfold rtot_init, WprimeMatchSmoothing in *.
  change 25 with (Z.of_nat (Z.to_nat 25)) at 2.
  rewrite rtot_init_loop_sum by (change (Z.of_nat (Z.to_nat 25)) with 25; lia).
  reflexivity.
Qed.

(** The state of the backward pass after its first [k] turns: the turns at
    [last], ..., [last - k + 1] have stored the rolling sum over 25, which
    carries [a[last-25] - a[last]] on top of the window that ends at the
    index. *)
Lemma rolling_prefix (a : list Z) (last : Z) (k : nat) :
  last < Z.of_nat (length a) ->
  25 <= last ->
  25 <= last - Z.of_nat k + 1 ->
  let c := aget 0 a (last - 25) - aget 0 a last in
  let st := fold_left rolling_step
              (map (fun j => last - Z.of_nat j) (seq 0 k))
              (a, rtot_init a last) in
  length (fst st) = length a
  /\ snd st = window_sum a (last - Z.of_nat k - 24) 25 + c
  /\ (forall j, 0 <= j <= last - Z.of_nat k -> aget 0 (fst st) j = aget 0 a j)
  /\ (forall j, last - Z.of_nat k < j <= last ->
                aget 0 (fst st) j = (window_sum a (j - 24) 25 + c) ÷ 25).
Proof.
  intros Hlen H25; induction k as [|k IH]; intros Hk c st.
  - subst st; cbn [seq map fold_left fst snd]; repeat split; try (intros; lia).
    rewrite rtot_init_sum by (unfold WprimeMatchSmoothing; lia).
    replace (last - Z.of_nat 0 - 24) with (last - 25 + 1) by lia.
    rewrite (window_sum_shift a (last - 25) 24).
    replace (last - 25 + 1 + Z.of_nat 24) with last by lia.
    subst c; lia.
  - destruct IH as (H1 & H2 & H3 & H4); [lia|].
    subst st; rewrite seq_S, map_app, fold_left_app; cbn [plus map fold_left].
    destruct (fold_left rolling_step (map (fun j => last - Z.of_nat j) (seq 0 k))
                        (a, rtot_init a last)) as [b R].
    cbn [fst snd] in *; unfold rolling_step, WprimeMatchSmoothing; cbn [fst snd].
    set (i := last - Z.of_nat k) in *.
    assert (Hb : aget 0 (aset b i (R ÷ 25)) (i - 25) = aget 0 a (i - 25))
      by (rewrite aget_aset_neq by lia; apply H3; lia).
    repeat split.
    + rewrite length_aset; exact H1.
    + rewrite Hb, H3, H2 by lia.
      replace (last - Z.of_nat (S k) - 24) with (i - 25) by lia.
      replace (i - 24) with (i - 25 + 1) by lia.
      rewrite (window_sum_shift a (i - 25) 24).
      replace (i - 25 + 1 + Z.of_nat 24) with i by lia.
      lia.
    + intros j Hj; rewrite aget_aset_neq by lia; apply H3; lia.
    + intros j Hj; destruct (Z.eq_dec j i) as [->|Hne].
      * rewrite aget_aset_eq by lia; rewrite H2; reflexivity.
      * rewrite aget_aset_neq by lia; apply H4; lia.
Qed.

(** What the backward pass stores: below 25 the raw value; from 25 on the
    sum of the 25 values that end at the index, plus [a[last-25] - a[last]],
    over 25. *)
Lemma rolling_value (a : list Z) (last i : Z) :
  last < Z.of_nat (length a) -> 0 <= i <= last ->
  aget 0 (rolling a last) i
  = if i <? 25 then aget 0 a i
    else (window_sum a (i - 24) 25 + (aget 0 a (last - 25) - aget 0 a last)) ÷ 25.
Proof.
  intros Hlen Hi; unfold rolling, down_to, WprimeMatchSmoothing.
  destruct (Z.le_gt_cases 25 last) as [H25|H25].
  - destruct (rolling_prefix a last (Z.to_nat (last - 25 + 1)) Hlen H25)
      as (_ & _ & H3 & H4); [lia|].
    destruct (Z.ltb_spec i 25); [apply H3|apply H4]; lia.
  - replace (Z.to_nat (last - 25 + 1)) with O by lia; cbn [seq map fold_left fst].
    destruct (Z.ltb_spec i 25); [reflexivity|lia].
Qed.

(** C9 at the series that is 250 W at second 1 and 0 W elsewhere, with
    [last = 26]: the source stores 20 at index 25, while the mean of the 25
    values that end at index 25, and of the 25 that end before it, is 10 (no
    25 consecutive values of this series have a mean above 10).  Index 24
    keeps its raw value. *)
Theorem rolling_average_counts_a_value_twice :
  let series := fun i => if i =? 1 then 250 else 0 in
  aget 0 (smoothArray_of series 26) 25 = 20
  /\ trailing_mean_incl (rawArray_of series 26) 25 = 10
  /\ trailing_mean_excl (rawArray_of series 26) 25 = 10
  /\ aget 0 (smoothArray_of series 26) 26 = 10
  /\ aget 0 (smoothArray_of series 26) 24 = aget 0 (rawArray_of series 26) 24.
Proof. cbv zeta; repeat split; vm_compute; reflexivity. Qed.

(* ------------------------------------------------------------------ *)
(** ** The below-CP mean over binary64 *)

Lemma below_totals_none (series : Z -> Z) (cp : Z) (l : list Z) (st : float * float) :
  (forall i, In i l -> cp <= series i) ->
  fold_left (IEEE.below_step series cp) l st = st.
Proof.
  revert st; induction l as [|x l IH]; intros st H; [reflexivity|].
  cbn [fold_left]; unfold IEEE.below_step at 2; destruct st as [t c].
  destruct (Z.ltb_spec (series x) cp) as [Hlt|_].
  - specialize (H x (or_introl eq_refl)); lia.
  - apply IH; intros i Hi; apply H; right; exact Hi.
Qed.

Lemma sub_nan_r (x : float) : PrimFloat.sub x nan = nan.
Proof.
  rewrite <- (SF2Prim_Prim2SF (PrimFloat.sub x nan)), FloatAxioms.sub_spec.
  change (Prim2SF nan) with S754_nan.
  destruct (Prim2SF x); reflexivity.
Qed.

Lemma mul_nan_r (x : float) : PrimFloat.mul x nan = nan.
Proof.
  rewrite <- (SF2Prim_Prim2SF (PrimFloat.mul x nan)), FloatAxioms.mul_spec.
  change (Prim2SF nan) with S754_nan.
  destruct (Prim2SF x); reflexivity.
Qed.

Lemma belowMean_nan (series : Z -> Z) (cp last : Z) :
  (forall i, 0 <= i < last -> cp <= series i) ->
  IEEE.belowMean series cp last = nan.
Proof.
  intros H; unfold IEEE.belowMean, IEEE.below_totals.
  rewrite below_totals_none by (intros i Hi; apply H, in_upto, Hi).
  reflexivity.
Qed.

(** C3: on a series with no second below CP the source divides 0.0 by 0.0:
    the below-CP mean is a NaN, it is not taken as 0, and the exponent
    handed to [pow] for TAU is a NaN as well. *)
Theorem belowMean_nan_without_below_CP_seconds (series : Z -> Z) (cp last : Z) :
  (forall i, 0 <= i < last -> cp <= series i) ->
  PrimFloat.is_nan (IEEE.belowMean series cp last) = true
  /\ PrimFloat.is_nan (IEEE.tau_exponent series cp last) = true.
Proof.
  intros H; unfold IEEE.tau_exponent.
  rewrite (belowMean_nan series cp last H), sub_nan_r, mul_nan_r.
  split; reflexivity.
Qed.

Lemma belowMean_nan_without_below_CP_seconds_witness :
  (forall i, 0 <= i < 3 -> 250 <= (fun _ : Z => 300) i)
  /\ PrimFloat.is_nan (IEEE.belowMean (fun _ => 300) 250 3) = true
  /\ PrimFloat.is_nan (IEEE.tau_exponent (fun _ => 300) 250 3) = true.
Proof.
  assert (H : forall i, 0 <= i < 3 -> 250 <= (fun _ : Z => 300) i) by (intros; lia).
  split; [exact H|].
  exact (belowMean_nan_without_below_CP_seconds (fun _ => 300) 250 3 H).
Defined.

(** In the real-number model the same series leaves [countBelowCP] at zero,
    and TAU is the conversion of that NaN. *)
Lemma extract_counts_none (series : Z -> Z) (cp : Z) (l : list Z) (st : list Z * Z * Z) :
  (forall i, In i l -> cp <= series i) ->
  snd (fold_left (extract_step series cp) l st) = snd st
  /\ snd (fst (fold_left (extract_step series cp) l st)) = snd (fst st).
Proof.
  revert st; induction l as [|x l IH]; intros [[a t] c] H; [split; reflexivity|].
  cbn [fold_left]; unfold extract_step at 2 4.
  destruct (Z.ltb_spec (series x) cp) as [Hlt|_].
  - specialize (H x (or_introl eq_refl)); lia.
  - assert (H' : forall i, In i l -> cp <= series i)
      by (intros i Hi; apply H; right; exact Hi).
    specialize (IH (aset a x (if cp <? series x then series x - cp else 0), t, c) H').
    cbn [fst snd] in *; exact IH.
Qed.

Lemma run_TAU_without_below_CP_seconds (sv : list QPointF -> Z -> Z) (ion : Z)
  (ride : RideFile) :
  (forall i, 0 <= i < last_sec ride -> CP (run sv ion ride) <= series_of sv ride i) ->
  TAU (run sv ion ride) = ion.
Proof.
  intros H; unfold run; cbn [TAU]; unfold compute_TAU, extract.
  destruct (extract_counts_none (series_of sv ride) (fst (thresholds ride))
              (upto (last_sec ride)) (zeros (last_sec ride + 1), 0, 0)) as [Hc _].
  - intros i Hi; apply H, in_upto, Hi.
  - rewrite Hc; reflexivity.
Qed.

(** With a second below CP, the value that is truncated is above 316. *)
Lemma TAU_at_least_316 (ion cp totalBelowCP countBelowCP : Z) :
  countBelowCP <> 0 -> 316 <= compute_TAU ion cp totalBelowCP countBelowCP.
Proof.
  intros H; unfold compute_TAU.
  destruct (Z.eqb_spec countBelowCP 0) as [|_]; [contradiction|].
  set (r := tau_raw cp totalBelowCP countBelowCP).
  assert (Hr : (316 < r)%R).
  { subst r; unfold tau_raw.
    assert (0 < Rpower E (- (1 / 100)
                         * (IZR cp - IZR totalBelowCP / IZR countBelowCP)))%R
      by (unfold Rpower; apply exp_pos).
    lra. }
  destruct (base_Int_part r) as [_ Hb].
  assert (Hlt : (IZR 315 < IZR (Int_part r))%R) by lra.
  apply lt_IZR in Hlt; lia.
Qed.

(* ------------------------------------------------------------------ *)
(** ** The match scan *)

Lemma scan_back_spec (rawArray : list Z) (cp mstart : Z) (fuel : nat) :
  forall e0,
    (Z.to_nat (e0 - mstart) <= fuel)%nat ->
    scan_back fuel rawArray cp mstart e0 <= e0
    /\ (mstart < scan_back fuel rawArray cp mstart e0 ->
        cp <= aget 0 rawArray (scan_back fuel rawArray cp mstart e0))
    /\ (forall k, scan_back fuel rawArray cp mstart e0 < k <= e0 ->
                  aget 0 rawArray k < cp).
Proof.
  induction fuel as [|fuel IH]; intros e0 Hf; cbn [scan_back].
  - repeat split; try lia.
  - destruct (Z.ltb_spec mstart e0) as [H1|H1];
      destruct (Z.ltb_spec (aget 0 rawArray e0) cp) as [H2|H2]; cbn [andb];
      try (repeat split; lia).
    destruct (IH (e0 - 1)) as (Ha & Hb & Hc); [lia|].
    repeat split; [lia|exact Hb|].
    intros k Hk; destruct (Z.eq_dec k e0) as [->|Hne]; [exact H2|apply Hc; lia].
Qed.

Lemma match_ok_mono (smoothArray rawArray : list Z) (vs : list R) (cp n n' : Z)
  (m : Match) :
  n <= n' -> match_ok smoothArray rawArray vs cp n m ->
  match_ok smoothArray rawArray vs cp n' m.
Proof.
  intros Hn (H1 & H2 & H3 & H4 & H5 & H6 & H7 & i & Hi & Hs & Hr).
  repeat split; try assumption.
  exists i; repeat split; try assumption; lia.
Qed.

Lemma scan_step_inv (smoothArray rawArray : list Z) (vs : list R) (cp i : Z)
  (st : bool * Z * list Match) :
  0 <= i ->
  scan_inv smoothArray rawArray vs cp i st ->
  scan_inv smoothArray rawArray vs cp (i + 1)
           (scan_step smoothArray rawArray vs cp st i).
Proof.
  intros Hi [Hin Hms]; destruct st as [[inm mstart] ms]; cbn [fst snd] in *.
  assert (Hms' : Forall (match_ok smoothArray rawArray vs cp (i + 1)) ms).
  { eapply Forall_impl; [|exact Hms].
    intros m; apply match_ok_mono; lia. }
  unfold scan_step.
  destruct (Z.leb_spec cp (aget 0 smoothArray i)) as [Hs|Hs];
    destruct (Z.leb_spec cp (aget 0 rawArray i)) as [Hr|Hr];
    destruct (Z.ltb_spec (aget 0 smoothArray i) cp) as [Hs'|Hs'];
    destruct (Z.ltb_spec (aget 0 rawArray i) cp) as [Hr'|Hr'];
    try (exfalso; lia);
    destruct inm; cbn [negb andb orb fst snd];
    try (split; cbn [fst snd]; [intros _; try specialize (Hin eq_refl); lia|exact Hms']);
    try (split; cbn [fst snd]; [discriminate|exact Hms']).
  specialize (Hin eq_refl).
  split; cbn [fst snd]; [discriminate|].
  destruct (scan_back_spec rawArray cp mstart (Z.to_nat (i - 1 - mstart)) (i - 1))
    as (Ha & Hb & Hc); [lia|].
  set (e := scan_back (Z.to_nat (i - 1 - mstart)) rawArray cp mstart (i - 1)) in *.
  destruct (Z.ltb_spec mstart e) as [Hlt|_]; [|exact Hms'].
  destruct (Rle_dec _ _) as [Hc100|_]; [|exact Hms'].
  apply Forall_app; split; [exact Hms'|].
  constructor; [|constructor].
  unfold match_ok; cbn [start stop msecs cost].
  specialize (Hb Hlt).
  repeat split; try lia; try assumption.
  - destruct (Z.eq_dec e (i - 1)) as [He|He].
    + rewrite He; replace (i - 1 + 1) with i by lia; exact Hr'.
    + apply Hc; lia.
  - exists i; repeat split; try lia; assumption.
Qed.

Lemma scan_prefix_inv (smoothArray rawArray : list Z) (vs : list R) (cp : Z) (n : nat) :
  scan_inv smoothArray rawArray vs cp (Z.of_nat n)
    (fold_left (scan_step smoothArray rawArray vs cp) (upto (Z.of_nat n))
               (false, 0, [])).
Proof.
  induction n as [|n IH].
  - split; cbn [fst snd]; [discriminate|constructor].
  - replace (Z.of_nat (S n)) with (Z.of_nat n + 1) by lia.
    rewrite upto_succ, fold_left_app by lia.
    apply scan_step_inv; [lia|exact IH].
Qed.

Lemma find_matches_ok (smoothArray rawArray : list Z) (vs : list R) (cp last : Z) :
  Forall (match_ok smoothArray rawArray vs cp last)
         (find_matches smoothArray rawArray vs cp last).
Proof.
  unfold find_matches, scan.
  destruct (Z.le_gt_cases 0 last) as [H|H].
  - rewrite <- (Z2Nat.id last H).
    apply scan_prefix_inv.
  - unfold upto; replace (Z.to_nat last) with O by lia; constructor.
Qed.

(* ------------------------------------------------------------------ *)
(** ** [setRide] *)

Section SetRideFacts.

Variable sv : list QPointF -> Z -> Z.
Variable ion : Z.

Lemma setRide_run (w : WPrime) (ride : RideFile) :
  dataPoints ride <> [] -> wattsPresent ride = true ->
  setRide sv ion w (Some ride) = run sv ion ride.
Proof.
  intros Hd Hw; unfold setRide; rewrite Hw.
  destruct (dataPoints ride); [contradiction|reflexivity].
Qed.

Lemma setRide_degenerate (w : WPrime) (input : option RideFile) :
  match input with
  | None => True
  | Some ride => dataPoints ride = [] \/ wattsPresent ride = false
  end ->
  setRide sv ion w input
  = mkWPrime input [] [] (mvalues w) (mxvalues w) (matches w) 0 0 0 0 0.
Proof.
  destruct input as [ride|]; [|reflexivity].
  intros [H|H]; unfold setRide; rewrite H; [reflexivity|].
  rewrite orb_true_r; reflexivity.
Qed.

Lemma run_matches_ok (ride : RideFile) :
  Forall (match_ok (smoothArray_of (series_of sv ride) (last_sec ride))
                   (rawArray_of (series_of sv ride) (last_sec ride))
                   (values (run sv ion ride)) (CP (run sv ion ride))
                   (last_sec ride))
         (matches (run sv ion ride)).
Proof. apply find_matches_ok. Qed.

End SetRideFacts.

(* ------------------------------------------------------------------ *)
(** ** The depletion series of a run *)

Lemma run_depletion_sum (sv : list QPointF -> Z -> Z) (ion : Z) (ride : RideFile)
  (i : Z) :
  0 <= i <= last_sec ride ->
  aget 0%R (values (run sv ion ride)) i
  = depletion_spec
      (excess_code (series_of sv ride) (CP (run sv ion ride)) (last_sec ride))
      (WPRIME (run sv ion ride)) (TAU (run sv ion ride)) i.
Proof. intros H; apply (depletion_sum (series_of sv ride)); exact H. Qed.

(** C1, as amended: on a non-degenerate input, with the thresholds of the
    run, every second [i] of [0..last] has [depletion[i] = WPRIME -
    sum_{j=0}^{min(1200,i)-1} excess[i-j] * E^(-j/TAU)], where [excess[k] =
    max(0, series[k] - CP)] for [k < last] and [excess[last] = 0]; the sum
    at [i = 0] is empty, so [depletion[0] = WPRIME]. *)
Theorem depletion_closed_form (sv : list QPointF -> Z -> Z) (ion : Z)
  (w : WPrime) (ride : RideFile) (i : Z) :
  dataPoints ride <> [] -> wattsPresent ride = true ->
  0 <= i <= last_sec ride ->
  let r := setRide sv ion w (Some ride) in
  aget 0%R (values r) i
  = depletion_spec (excess_code (series_of sv ride) (CP r) (last_sec ride))
                   (WPRIME r) (TAU r) i
  /\ aget 0%R (values r) 0 = IZR (WPRIME r).
Proof.
  intros Hd Hw H; cbv zeta; rewrite (setRide_run sv ion w ride Hd Hw); split.
  - apply run_depletion_sum; exact H.
  - rewrite run_depletion_sum by lia.
    unfold depletion_spec; simpl; lra.
Qed.

Lemma depletion_closed_form_witness :
  dataPoints finish_ride <> []
  /\ wattsPresent finish_ride = true
  /\ 0 <= 2 <= last_sec finish_ride
  /\ let r := setRide knot_value 0 WPrime_new (Some finish_ride) in
     aget 0%R (values r) 2
     = depletion_spec
         (excess_code (series_of knot_value finish_ride) (CP r) (last_sec finish_ride))
         (WPRIME r) (TAU r) 2
     /\ aget 0%R (values r) 0 = IZR (WPRIME r).
Proof.
  assert (H1 : dataPoints finish_ride <> []) by discriminate.
  assert (H2 : wattsPresent finish_ride = true) by reflexivity.
  assert (H3 : 0 <= 2 <= last_sec finish_ride) by (change (last_sec finish_ride) with 2; lia).
  split; [exact H1|split; [exact H2|split; [exact H3|]]].
  exact (depletion_closed_form knot_value 0 WPrime_new finish_ride 2 H1 H2 H3).
Defined.

(** C1 as the spec words it fails at the last second: on the ride that ends
    with a second at 300 W (CP = 250), the source leaves [excess[last]] at
    zero, so [depletion[last]] is W' and not W' - 50. *)
Lemma depletion_last_second_counterexample :
  let r := setRide knot_value 0 WPrime_new (Some finish_ride) in
  aget 0%R (values r) 2
  <> depletion_spec (excess_spec (series_of knot_value finish_ride) (CP r))
                    (WPRIME r) (TAU r) 2.
Proof.
  cbv zeta; rewrite setRide_run by (try discriminate; reflexivity).
  rewrite run_depletion_sum by (change (last_sec finish_ride) with 2; lia).
  unfold depletion_spec.
  change (Z.to_nat (Z.min 1200 2)) with 2%nat.
  cbn [big_sum Z.of_nat Pos.of_succ_nat].
  change (excess_code _ _ _ (2 - 0)) with 0.
  change (excess_code _ _ _ (2 - 1)) with 0.
  change (excess_spec _ _ (2 - 0)) with 50.
  change (excess_spec _ _ (2 - 1)) with 0.
  rewrite decay_at_0; lra.
Qed.

(** C5: every match of the list a run returns has [stop > start], a cost of
    at least 100 J that is [depletion[start] - depletion[stop]], and a stop
    that is the refined boundary: [raw[stop] >= CP] and [raw[stop+1] < CP]. *)
Theorem returned_matches_invariant (sv : list QPointF -> Z -> Z) (ion : Z)
  (w : WPrime) (ride : RideFile) :
  dataPoints ride <> [] -> wattsPresent ride = true ->
  let r := setRide sv ion w (Some ride) in
  let raw := rawArray_of (series_of sv ride) (last_sec ride) in
  Forall (fun m =>
            start m < stop m
            /\ (100 <= cost m)%R
            /\ cost m = (aget 0 (values r) (start m) - aget 0 (values r) (stop m))%R
            /\ CP r <= aget 0 raw (stop m)
            /\ aget 0 raw (stop m + 1) < CP r)
         (matches r).
Proof.
  intros Hd Hw; cbv zeta; rewrite (setRide_run sv ion w ride Hd Hw).
  eapply Forall_impl; [|apply run_matches_ok].
  intros m (_ & H2 & _ & H4 & H5 & H6 & H7 & _).
  repeat split; assumption.
Qed.

(** C6: when the raw power is at or above CP from second [s] to the end of
    the series, every match of the returned list was closed by the exit
    condition at a second before [s]: none is open at the end, and none is
    returned at all when the power never was below CP. *)
Theorem no_trailing_open_match (sv : list QPointF -> Z -> Z) (ion : Z)
  (w : WPrime) (ride : RideFile) (s : Z) :
  dataPoints ride <> [] -> wattsPresent ride = true ->
  let r := setRide sv ion w (Some ride) in
  let raw := rawArray_of (series_of sv ride) (last_sec ride) in
  let smooth := smoothArray_of (series_of sv ride) (last_sec ride) in
  (forall k, s <= k < last_sec ride -> CP r <= aget 0 raw k) ->
  Forall (fun m =>
            exists i, start m < i /\ stop m < i /\ i < s
                      /\ aget 0 smooth i < CP r /\ aget 0 raw i < CP r)
         (matches r)
  /\ (s <= 0 -> matches r = []).
Proof.
  intros Hd Hw; cbv zeta; rewrite (setRide_run sv ion w ride Hd Hw); intros Htail.
  assert (HF : Forall (fun m =>
            0 <= start m
            /\ exists i, start m < i /\ stop m < i /\ i < s
               /\ aget 0 (smoothArray_of (series_of sv ride) (last_sec ride)) i
                  < CP (run sv ion ride)
               /\ aget 0 (rawArray_of (series_of sv ride) (last_sec ride)) i
                  < CP (run sv ion ride))
           (matches (run sv ion ride))).
  { eapply Forall_impl; [|apply run_matches_ok].
    intros m (H1 & H2 & _ & _ & _ & _ & _ & i & Hi & Hs & Hr).
    split; [exact H1|].
    exists i; repeat split; try assumption; try lia.
    destruct (Z.lt_ge_cases i s) as [Hlt|Hge]; [exact Hlt|].
    specialize (Htail i ltac:(lia)); lia. }
  split.
  - eapply Forall_impl; [|exact HF]. intros m [_ H]; exact H.
  - intros Hs0. destruct (matches (run sv ion ride)) as [|m ms]; [reflexivity|].
    inversion HF as [|? ? (H0 & i & Hi & _ & His & _) _]; lia.
Qed.

Lemma returned_matches_invariant_witness :
  dataPoints surge_ride <> []
  /\ wattsPresent surge_ride = true
  /\ let r := setRide knot_value 0 WPrime_new (Some surge_ride) in
     let raw := rawArray_of (series_of knot_value surge_ride) (last_sec surge_ride) in
     Forall (fun m =>
               start m < stop m
               /\ (100 <= cost m)%R
               /\ cost m = (aget 0 (values r) (start m) - aget 0 (values r) (stop m))%R
               /\ CP r <= aget 0 raw (stop m)
               /\ aget 0 raw (stop m + 1) < CP r)
            (matches r).
Proof.
  assert (H1 : dataPoints surge_ride <> []) by discriminate.
  assert (H2 : wattsPresent surge_ride = true) by reflexivity.
  split; [exact H1|split; [exact H2|]].
  exact (returned_matches_invariant knot_value 0 WPrime_new surge_ride H1 H2).
Defined.

Lemma no_trailing_open_match_witness :
  let r := setRide knot_value 0 WPrime_new (Some steady_ride) in
  let raw := rawArray_of (series_of knot_value steady_ride) (last_sec steady_ride) in
  let smooth := smoothArray_of (series_of knot_value steady_ride) (last_sec steady_ride) in
  dataPoints steady_ride <> []
  /\ wattsPresent steady_ride = true
  /\ (forall k, 1 <= k < last_sec steady_ride -> CP r <= aget 0 raw k)
  /\ Forall (fun m =>
               exists i, start m < i /\ stop m < i /\ i < 1
                         /\ aget 0 smooth i < CP r /\ aget 0 raw i < CP r)
            (matches r).
Proof.
  cbv zeta.
  assert (H1 : dataPoints steady_ride <> []) by discriminate.
  assert (H2 : wattsPresent steady_ride = true) by reflexivity.
  assert (H3 : forall k, 1 <= k < last_sec steady_ride ->
        CP (setRide knot_value 0 WPrime_new (Some steady_ride))
        <= aget 0 (rawArray_of (series_of knot_value steady_ride)
                               (last_sec steady_ride)) k).
  { intros k Hk; change (last_sec steady_ride) with 3 in Hk.
    assert (Hc : k = 1 \/ k = 2) by lia.
    destruct Hc as [->| ->]; lazy; discriminate. }
  split; [exact H1|split; [exact H2|split; [exact H3|]]].
  apply (no_trailing_open_match knot_value 0 WPrime_new steady_ride 1 H1 H2 H3).
Defined.

(* ------------------------------------------------------------------ *)
(** ** The final second *)

Lemma fold_left_ext_in {A B : Type} (f g : A -> B -> A) (l : list B) :
  (forall a x, In x l -> f a x = g a x) ->
  forall a, fold_left f l a = fold_left g l a.
Proof.
  induction l as [|x l IH]; intros H a; [reflexivity|].
  cbn [fold_left]; rewrite (H a x (or_introl eq_refl)).
  apply IH; intros a' y Hy; apply H; right; exact Hy.
Qed.

Lemma extract_ext (series series' : Z -> Z) (cp last : Z) :
  (forall i, 0 <= i < last -> series i = series' i) ->
  extract series cp last = extract series' cp last.
Proof.
  intros H; unfold extract; apply fold_left_ext_in.
  intros st i Hi; unfold extract_step; rewrite (H i) by (apply in_upto, Hi).
  reflexivity.
Qed.

Lemma fill_arrays_ext (series series' : Z -> Z) (last : Z) :
  (forall i, 0 <= i < last -> series i = series' i) ->
  fill_arrays series last = fill_arrays series' last.
Proof.
  intros H; unfold fill_arrays; apply fold_left_ext_in.
  intros st i Hi; unfold fill_step; rewrite (H i) by (apply in_upto, Hi).
  reflexivity.
Qed.

Lemma fill_arrays_both (series : Z -> Z) (l : list Z) (st : list Z * list Z) :
  fold_left (fill_step series) l st
  = (fold_left (tabulate_step series) l (fst st),
     fold_left (tabulate_step series) l (snd st)).
Proof.
  revert st; induction l as [|x l IH]; intros [a b]; [reflexivity|].
  cbn [fold_left]; rewrite IH; reflexivity.
Qed.

Lemma aget_filled (series : Z -> Z) (last k : Z) :
  0 <= k ->
  aget 0 (fold_left (tabulate_step series) (upto last) (zeros (last + 1))) k
  = if k <? last then series k else 0.
Proof.
  intros Hk; destruct (Z.ltb_spec k last) as [H|H].
  - apply aget_tabulate_in; [rewrite length_zeros; lia|apply in_upto; lia].
  - rewrite aget_tabulate_out; [apply aget_zeros|lia|rewrite in_upto; lia].
Qed.

Lemma aget_rawArray (series : Z -> Z) (last k : Z) :
  0 <= k ->
  aget 0 (rawArray_of series last) k = if k <? last then series k else 0.
Proof.
  intros Hk; unfold rawArray_of, fill_arrays; rewrite fill_arrays_both.
  apply aget_filled; exact Hk.
Qed.

Lemma aget_smoothArray_filled (series : Z -> Z) (last k : Z) :
  0 <= k ->
  aget 0 (fst (fill_arrays series last)) k = if k <? last then series k else 0.
Proof.
  intros Hk; unfold fill_arrays; rewrite fill_arrays_both.
  apply aget_filled; exact Hk.
Qed.

Lemma aget_empty_run (f : Z -> Z) (last : Z) :
  last < 0 ->
  aget 0 (fold_left (tabulate_step f) (upto last) (zeros (last + 1))) last = 0.
Proof.
  intros H; unfold upto, zeros.
  replace (Z.to_nat last) with O by lia.
  replace (Z.to_nat (last + 1)) with O by lia.
  unfold aget; cbn; destruct (Z.to_nat last); reflexivity.
Qed.

(** The three arrays hold 0 at [last] once they are filled. *)
Lemma arrays_zero_at_last (series : Z -> Z) (cp last : Z) :
  aget 0 (inputArray_of series cp last) last = 0
  /\ aget 0 (fst (fill_arrays series last)) last = 0
  /\ aget 0 (rawArray_of series last) last = 0.
Proof.
  destruct (Z.le_gt_cases 0 last) as [H|H].
  - rewrite aget_inputArray, aget_smoothArray_filled, aget_rawArray by exact H.
    unfold excess_code; rewrite Z.ltb_irrefl; auto.
  - rewrite inputArray_of_eq; unfold rawArray_of, fill_arrays.
    rewrite fill_arrays_both; cbn [fst snd].
    rewrite !aget_empty_run by lia; auto.
Qed.


(* ------------------------------------------------------------------ *)
(** ** A run with a match, and the run after it *)

Lemma value_at_0 (inputArray : list Z) (wprime tau : Z) :
  value_at inputArray wprime tau 0 = IZR wprime.
Proof.
  unfold value_at, WprimeMultConst; rewrite sumproduct_sum; simpl; lra.
Qed.

Lemma value_at_1 (inputArray : list Z) (wprime tau : Z) :
  value_at inputArray wprime tau 1
  = (IZR wprime - IZR (aget 0%Z inputArray 1%Z))%R.
Proof.
  unfold value_at, WprimeMultConst; rewrite sumproduct_sum.
  change (Z.to_nat (Z.min 1200 1)) with 1%nat.
  cbn [big_sum Z.of_nat]; unfold term.
  rewrite decay_at_0; change (1 - 0) with 1; lra.
Qed.

Lemma surge_matches (vs : list R) :
  (100 <= aget 0 vs 0 - aget 0 vs 1)%R ->
  find_matches [1000; 1000; 0; 0] [1000; 1000; 0; 0] vs 250 3
  = [mkMatch 0 1 2 (aget 0 vs 0 - aget 0 vs 1)%R].
Proof.
  intros H; unfold find_matches, scan.
  remember (aget 0%R vs) as g eqn:Hg.
  unfold scan_step; rewrite <- Hg.
  lazy -[Rle_dec IZR Rminus Rle].
  destruct (Rle_dec _ _) as [_|Hn]; [reflexivity|contradiction].
Qed.

Lemma surge_run_matches :
  matches (run knot_value 0 surge_ride) = [mkMatch 0 1 2 750].
Proof.
  unfold run; cbn [matches].
  change (last_sec surge_ride) with 3.
  change (rolling _ 3) with [1000; 1000; 0; 0].
  change (snd (fill_arrays _ 3)) with [1000; 1000; 0; 0].
  change (fst (thresholds surge_ride)) with 250.
  change (snd (thresholds surge_ride)) with 0.
  set (arr := fst (fst (extract (series_of knot_value surge_ride) 250 3))).
  set (tau := compute_TAU 0 250 _ _).
  assert (H0 : aget 0%R (fst (fst (fst (deplete arr 0 tau 3)))) 0 = 0%R)
    by (rewrite aget_deplete_values by lia; apply value_at_0).
  assert (H1 : aget 0%R (fst (fst (fst (deplete arr 0 tau 3)))) 1 = (-750)%R).
  { rewrite aget_deplete_values by lia; rewrite value_at_1.
    change (aget 0 arr 1) with 750; lra. }
  rewrite surge_matches; rewrite H0, H1; [|lra].
  do 2 f_equal; lra.
Qed.

(** C2 on an instance that is reused: the run on a ride with a surge returns
    one match; the next run, on a null ride, on a ride without samples or on
    a ride without power, empties the series and zeroes the thresholds but
    returns that match again. *)
Theorem degenerate_run_keeps_previous_matches :
  let w1 := setRide knot_value 0 WPrime_new (Some surge_ride) in
  let w2 := setRide knot_value 0 w1 None in
  let w3 := setRide knot_value 0 w1 (Some (mkRide [] true 1 None 0)) in
  let w4 := setRide knot_value 0 w1 (Some (mkRide [mkPoint 0 300] false 1 None 0)) in
  matches w1 = [mkMatch 0 1 2 750]
  /\ matches w2 = [mkMatch 0 1 2 750]
  /\ matches w3 = [mkMatch 0 1 2 750]
  /\ matches w4 = [mkMatch 0 1 2 750]
  /\ values w2 = [] /\ xvalues w2 = []
  /\ minY w2 = 0%R /\ maxY w2 = 0%R
  /\ CP w2 = 0 /\ WPRIME w2 = 0 /\ TAU w2 = 0.
Proof.
  cbv zeta.
  rewrite (setRide_degenerate knot_value 0 _ None I).
  rewrite (setRide_degenerate knot_value 0 _ (Some (mkRide [] true 1 None 0))
             (or_introl eq_refl)).
  rewrite (setRide_degenerate knot_value 0 _
             (Some (mkRide [mkPoint 0 300] false 1 None 0)) (or_intror eq_refl)).
  cbn [matches values xvalues minY maxY CP WPRIME TAU].
  rewrite setRide_run by (try discriminate; reflexivity).
  rewrite surge_run_matches; repeat split; reflexivity.
Qed.

(* ------------------------------------------------------------------ *)
(** ** [minY] and the minimum W' metric *)

Lemma min_update (v mn : R) : (if Rlt_dec v mn then v else mn) = Rmin v mn.
Proof.
  unfold Rmin; destruct (Rlt_dec v mn), (Rle_dec v mn); lra.
Qed.

Lemma deplete_minY (inputArray : list Z) (wprime tau : Z) (l : list Z)
  (st : list R * list R * R * R) :
  snd (fst (fold_left (deplete_step inputArray wprime tau) l st))
  = fold_left (fun mn i => Rmin (value_at inputArray wprime tau i) mn) l
              (snd (fst st)).
Proof.
  revert st; induction l as [|x l IH]; intros [[[vs xs] mn] mx]; [reflexivity|].
  cbn [fold_left]; unfold deplete_step at 2; rewrite IH; cbn [fst snd].
  rewrite min_update; reflexivity.
Qed.

Lemma fold_min_rev (f : Z -> R) (l : list Z) (a : R) :
  fold_left (fun mn i => Rmin (f i) mn) (rev l) a = fold_right Rmin a (map f l).
Proof.
  induction l as [|x l IH]; [reflexivity|].
  cbn [rev map fold_right]; rewrite fold_left_app; cbn [fold_left].
  rewrite IH; reflexivity.
Qed.

Lemma down_to_rev (n : nat) :
  down_to (Z.of_nat n - 1) 0 = rev (upto (Z.of_nat n)).
Proof.
  unfold down_to, upto.
  replace (Z.to_nat (Z.of_nat n - 1 - 0 + 1)) with n by lia.
  rewrite Nat2Z.id.
  induction n as [|n IH]; [reflexivity|].
  rewrite seq_S at 2; rewrite map_app, rev_app_distr; cbn [map rev app seq plus].
  f_equal; [lia|].
  rewrite <- IH, <- seq_shift, map_map.
  apply map_ext; intros k; lia.
Qed.

Lemma nth_upto (n : Z) (k : nat) :
  (k < Z.to_nat n)%nat -> nth k (upto n) 0 = Z.of_nat k.
Proof.
  intros H; unfold upto.
  change 0 with (Z.of_nat 0); rewrite map_nth, seq_nth by exact H; reflexivity.
Qed.

Lemma deplete_values_map (inputArray : list Z) (wprime tau last : Z) :
  fst (fst (fst (deplete inputArray wprime tau last)))
  = map (value_at inputArray wprime tau) (upto (last + 1)).
Proof.
  assert (Hlen : length (fst (fst (fst (deplete inputArray wprime tau last))))
                 = Z.to_nat (last + 1)).
  { pose proof (length_deplete_values inputArray wprime tau last); lia. }
  apply nth_ext with (d := 0%R) (d' := value_at inputArray wprime tau 0).
  - rewrite Hlen; unfold upto; rewrite !length_map, length_seq; reflexivity.
  - intros k Hk; rewrite Hlen in Hk.
    rewrite map_nth, nth_upto by exact Hk.
    rewrite <- (aget_deplete_values inputArray wprime tau last (Z.of_nat k)) by lia.
    unfold aget; rewrite Nat2Z.id; reflexivity.
Qed.

Lemma deplete_minY_min (inputArray : list Z) (wprime tau last : Z) :
  snd (fst (deplete inputArray wprime tau last))
  = seeded_min 0 (fst (fst (fst (deplete inputArray wprime tau last)))).
Proof.
  rewrite deplete_values_map; unfold deplete, seeded_min.
  rewrite deplete_minY; cbn [fst snd].
  destruct (Z.le_gt_cases 0 (last + 1)) as [H|H].
  - replace last with (Z.of_nat (Z.to_nat (last + 1)) - 1) at 1 by lia.
    rewrite down_to_rev, Z2Nat.id by exact H.
    apply fold_min_rev.
  - unfold down_to, upto.
    replace (Z.to_nat (last - 0 + 1)) with O by lia.
    replace (Z.to_nat (last + 1)) with O by lia.
    reflexivity.
Qed.

Lemma setRide_minY (sv : list QPointF -> Z -> Z) (ion : Z) (w : WPrime)
  (input : option RideFile) :
  minY (setRide sv ion w input) = seeded_min 0 (values (setRide sv ion w input)).
Proof.
  unfold setRide; destruct input as [ride|]; [|reflexivity].
  destruct (_ || _); [reflexivity|].
  unfold run; cbn [minY values]; apply deplete_minY_min.
Qed.

(** C4, as amended: for every input the metric is [minY/1000], where [minY]
    is the minimum of 0 and of the depletion series over all seconds (0 on a
    degenerate input); it is reported to one decimal place and it cannot be
    aggregated. *)
Theorem min_wprime_metric (sv : list QPointF -> Z -> Z) (ion : Z)
  (r : option RideFile) :
  MinWPrime_compute sv ion r
  = (seeded_min 0 (values (setRide sv ion WPrime_new r)) / 1000)%R
  /\ MinWPrime_precision = 1
  /\ MinWPrime_canAggregate = false.
Proof.
  unfold MinWPrime_compute; rewrite setRide_minY; repeat split.
Qed.

Lemma big_sum_zero (n : nat) (f : nat -> R) :
  (forall k, f k = 0%R) -> big_sum n f = 0%R.
Proof.
  intros H; induction n as [|n IH]; [reflexivity|].
  cbn [big_sum]; rewrite IH, H; lra.
Qed.

Lemma value_at_zero_excess (inputArray : list Z) (wprime tau i : Z) :
  (forall k, aget 0 inputArray k = 0) ->
  value_at inputArray wprime tau i = IZR wprime.
Proof.
  intros H; unfold value_at, WprimeMultConst.
  rewrite sumproduct_sum, big_sum_zero; [lra|].
  intros k; unfold term; rewrite H; lra.
Qed.

(** C4 as the spec words it fails when the balance never goes below zero:
    on a ride without any power, with CP = 250 and W' = 20000, the depletion
    series is 20000 at every second, its minimum over 1000 is 20, and the
    metric is 0. *)
Lemma min_wprime_metric_counterexample :
  MinWPrime_compute knot_value 0 (Some rest_ride)
  <> (series_min (values (setRide knot_value 0 WPrime_new (Some rest_ride))) / 1000)%R.
Proof.
  unfold MinWPrime_compute; rewrite setRide_minY.
  rewrite setRide_run by (try discriminate; reflexivity).
  unfold run; cbn [values]; rewrite deplete_values_map.
  change (last_sec rest_ride) with 2.
  change (upto (2 + 1)) with [0; 1; 2]; cbn [map].
  change (snd (thresholds rest_ride)) with 20000.
  assert (Hz : forall k,
             aget 0 (fst (fst (extract (series_of knot_value rest_ride)
                                       (fst (thresholds rest_ride)) 2))) k = 0).
  { intros k; unfold aget.
    change (fst (fst (extract _ _ 2))) with [0; 0; 0].
    destruct (Z.to_nat k) as [|[|[|[|n]]]]; reflexivity. }
  rewrite !(value_at_zero_excess _ _ _ _ Hz).
  unfold seeded_min, series_min; cbn [fold_right].
  unfold Rmin; repeat destruct (Rle_dec _ _); lra.
Qed.

(* ================================================================== *)
(** * Further properties of the run *)

(* ------------------------------------------------------------------ *)
(** ** The range of TAU *)

Lemma extract_totals (series : Z -> Z) (cp : Z) (l : list Z) :
  forall st : list Z * Z * Z,
    snd (fold_left (extract_step series cp) l st)
    = snd st + Z.of_nat (length (filter (fun i => series i <? cp) l))
    /\ snd (fst (fold_left (extract_step series cp) l st))
       <= snd (fst st)
          + (cp - 1) * Z.of_nat (length (filter (fun i => series i <? cp) l)).
Proof.
  induction l as [|x l IH]; intros [[a t] c]; cbn [fold_left filter].
  - cbn [length fst snd]; lia.
  - destruct (IH (extract_step series cp (a, t, c) x)) as [IH1 IH2].
    rewrite IH1; split; [|eapply Z.le_trans; [exact IH2|]];
      unfold extract_step; cbn [fst snd];
      destruct (Z.ltb_spec (series x) cp) as [Hlt|Hge]; cbn [length]; nia.
Qed.

Lemma decay_lt_1 (y : R) : (y < 0)%R -> (Rpower E y < 1)%R.
Proof.
  intros Hy; unfold Rpower.
  assert (HlnE : (0 < ln E)%R).
  { rewrite <- ln_1; apply ln_increasing; unfold E; lra. }
  rewrite <- exp_0; apply exp_increasing; nra.
Qed.

Lemma decay_pos (y : R) : (0 < Rpower E y)%R.
Proof. unfold Rpower; apply exp_pos. Qed.

Lemma decay_le_1 (y : R) : (y <= 0)%R -> (Rpower E y <= 1)%R.
Proof.
  intros [Hy| ->]; [left; apply decay_lt_1; exact Hy|].
  right; apply Rpower_O, E_pos.
Qed.

Lemma compute_TAU_range (ion cp totalBelowCP countBelowCP : Z) :
  0 < countBelowCP -> totalBelowCP <= (cp - 1) * countBelowCP ->
  316 <= compute_TAU ion cp totalBelowCP countBelowCP <= 861.
Proof.
  intros Hc Ht; split; [apply TAU_at_least_316; lia|].
  unfold compute_TAU; destruct (Z.eqb_spec countBelowCP 0) as [|_]; [lia|].
  set (r := tau_raw cp totalBelowCP countBelowCP).
  assert (Hr : (r < 862)%R).
  { subst r; unfold tau_raw.
    assert (Hc' : (0 < IZR countBelowCP)%R) by (apply IZR_lt; exact Hc).
    assert (Hm : (IZR totalBelowCP / IZR countBelowCP <= IZR cp - 1)%R).
    { apply IZR_le in Ht; rewrite mult_IZR, minus_IZR in Ht.
      apply Rmult_le_reg_r with (r := IZR countBelowCP); [exact Hc'|].
      unfold Rdiv; rewrite Rmult_assoc, Rinv_l by lra; lra. }
    assert (Hp := decay_lt_1
                    (- (1 / 100) * (IZR cp - IZR totalBelowCP / IZR countBelowCP))
                    ltac:(lra)).
    lra. }
  destruct (base_Int_part r) as [Hb _].
  assert (Hlt : (IZR (Int_part r) < IZR 862)%R) by lra.
  apply lt_IZR in Hlt; lia.
Qed.

Lemma run_counts (sv : list QPointF -> Z -> Z) (ride : RideFile) (cp : Z) :
  (exists i, 0 <= i < last_sec ride /\ series_of sv ride i < cp) ->
  let ex := extract (series_of sv ride) cp (last_sec ride) in
  0 < snd ex /\ snd (fst ex) <= (cp - 1) * snd ex.
Proof.
  intros (i & Hi & Hlt); cbv zeta; unfold extract.
  destruct (extract_totals (series_of sv ride) cp (upto (last_sec ride))
              (zeros (last_sec ride + 1), 0, 0)) as [H1 H2].
  cbn [fst snd] in H1, H2; rewrite H1.
  assert (Hin : In i (filter (fun i => series_of sv ride i <? cp) (upto (last_sec ride)))).
  { apply filter_In; split; [apply in_upto; exact Hi|].
    apply Z.ltb_lt; exact Hlt. }
  destruct (filter _ _) as [|y l]; [destruct Hin|].
  cbn [length] in *; split; lia.
Qed.

(** X1: on a non-degenerate run with at least one second below CP, TAU
    lies between 316 and 861. *)
Theorem TAU_range_with_a_below_CP_second (sv : list QPointF -> Z -> Z) (ion : Z)
  (w : WPrime) (ride : RideFile) :
  dataPoints ride <> [] -> wattsPresent ride = true ->
  let r := setRide sv ion w (Some ride) in
  (exists i, 0 <= i < last_sec ride /\ series_of sv ride i < CP r) ->
  316 <= TAU r <= 861.
Proof.
  intros Hd Hw; cbv zeta; rewrite (setRide_run sv ion w ride Hd Hw); intros Hex.
  destruct (run_counts sv ride _ Hex) as [H1 H2].
  unfold run; cbn [TAU]; apply compute_TAU_range; assumption.
Qed.

(** X2: when a zone configuration exists but has no range for the date of
    the ride, CP and W' are 0; if the power is never negative, no second is
    below CP, the below-CP mean is a NaN and TAU is the conversion of it. *)
Theorem no_zone_range_leaves_TAU_undefined (sv : list QPointF -> Z -> Z) (ion : Z)
  (w : WPrime) (ride : RideFile) (z : Zones) :
  dataPoints ride <> [] -> wattsPresent ride = true ->
  zones ride = Some z -> whichRange z (startDate ride) < 0 ->
  (forall i, 0 <= i < last_sec ride -> 0 <= series_of sv ride i) ->
  let r := setRide sv ion w (Some ride) in
  CP r = 0 /\ WPRIME r = 0
  /\ PrimFloat.is_nan (IEEE.belowMean (series_of sv ride) (CP r) (last_sec ride)) = true
  /\ TAU r = ion.
Proof.
  intros Hd Hw Hz Hr Hpos; cbv zeta; rewrite (setRide_run sv ion w ride Hd Hw).
  assert (Hcp : CP (run sv ion ride) = 0).
  { unfold run; cbn [CP]; unfold thresholds; rewrite Hz.
    destruct (Z.leb_spec 0 (whichRange z (startDate ride))); [lia|reflexivity]. }
  split; [exact Hcp|split; [|split]].
  - unfold run; cbn [WPRIME]; unfold thresholds; rewrite Hz.
    destruct (Z.leb_spec 0 (whichRange z (startDate ride))); [lia|reflexivity].
  - rewrite belowMean_nan; [reflexivity|].
    intros i Hi; rewrite Hcp; apply Hpos; exact Hi.
  - apply run_TAU_without_below_CP_seconds.
    intros i Hi; rewrite Hcp; apply Hpos; exact Hi.
Qed.

(* ------------------------------------------------------------------ *)
(** ** Bounds on the depletion series *)

Lemma big_sum_le (n : nat) (f g : nat -> R) :
  (forall k, (k < n)%nat -> (f k <= g k)%R) -> (big_sum n f <= big_sum n g)%R.
Proof.
  induction n as [|n IH]; intros H; cbn [big_sum]; [lra|].
  specialize (IH (fun k Hk => H k (Nat.lt_lt_succ_r _ _ Hk))).
  specialize (H n (Nat.lt_succ_diag_r n)); lra.
Qed.

Lemma excess_code_nonneg (series : Z -> Z) (cp last k : Z) :
  0 <= excess_code series cp last k.
Proof. unfold excess_code; destruct (k <? last); lia. Qed.

Lemma depletion_spec_bounds (excess : Z -> Z) (wprime tau i : Z) :
  (forall k, 0 <= excess k) -> 0 < tau ->
  (IZR wprime
   - big_sum (Z.to_nat (Z.min 1200 i)) (fun j => IZR (excess (i - Z.of_nat j)%Z))
   <= depletion_spec excess wprime tau i <= IZR wprime)%R.
Proof.
  intros Hex Htau; unfold depletion_spec.
  assert (Hw : forall j : nat,
             (0 < Rpower E (- (IZR (Z.of_nat j) / IZR tau)) <= 1)%R).
  { intros j; split; [apply decay_pos|apply decay_le_1].
    assert (0 <= IZR (Z.of_nat j))%R by (apply IZR_le; lia).
    assert (0 < IZR tau)%R by (apply IZR_lt; exact Htau).
    assert (0 <= IZR (Z.of_nat j) / IZR tau)%R
      by (apply Rmult_le_pos; [assumption|left; apply Rinv_0_lt_compat; assumption]).
    lra. }
  assert (Hlo : (big_sum (Z.to_nat (Z.min 1200 i)) (fun _ => 0)
                 <= big_sum (Z.to_nat (Z.min 1200 i))
                      (fun j => IZR (excess (i - Z.of_nat j)%Z)
                                * Rpower E (- (IZR (Z.of_nat j) / IZR tau))))%R).
  { apply big_sum_le; intros k _.
    assert (0 <= IZR (excess (i - Z.of_nat k)%Z))%R by (apply IZR_le, Hex).
    destruct (Hw k); nra. }
  assert (Hhi : (big_sum (Z.to_nat (Z.min 1200 i))
                      (fun j => IZR (excess (i - Z.of_nat j)%Z)
                                * Rpower E (- (IZR (Z.of_nat j) / IZR tau)))
                 <= big_sum (Z.to_nat (Z.min 1200 i))
                      (fun j => IZR (excess (i - Z.of_nat j)%Z)))%R).
  { apply big_sum_le; intros k _.
    assert (0 <= IZR (excess (i - Z.of_nat k)%Z))%R by (apply IZR_le, Hex).
    destruct (Hw k); nra. }
  rewrite big_sum_zero in Hlo by reflexivity; lra.
Qed.

Lemma run_value_bounds (sv : list QPointF -> Z -> Z) (ion : Z) (ride : RideFile)
  (i : Z) :
  0 <= i <= last_sec ride ->
  (exists k, 0 <= k < last_sec ride /\ series_of sv ride k < CP (run sv ion ride)) ->
  (IZR (WPRIME (run sv ion ride))
   - big_sum (Z.to_nat (Z.min 1200 i))
       (fun j => IZR (excess_code (series_of sv ride) (CP (run sv ion ride))
                                  (last_sec ride) (i - Z.of_nat j)%Z))
   <= aget 0 (values (run sv ion ride)) i <= IZR (WPRIME (run sv ion ride)))%R.
Proof.
  intros Hi Hex; rewrite run_depletion_sum by exact Hi.
  apply depletion_spec_bounds; [intros k; apply excess_code_nonneg|].
  destruct (run_counts sv ride _ Hex) as [H1 H2].
  pose proof (compute_TAU_range ion _ _ _ H1 H2) as Ht.
  unfold run; cbn [TAU CP]; unfold run in Ht; cbn [CP] in Ht; lia.
Qed.

(** X3: on a non-degenerate run with a second below CP, every value of the
    depletion series is at most W' and at least W' less the sum of the excess
    over the seconds of the window. *)
Theorem depletion_bounds (sv : list QPointF -> Z -> Z) (ion : Z)
  (w : WPrime) (ride : RideFile) (i : Z) :
  dataPoints ride <> [] -> wattsPresent ride = true ->
  0 <= i <= last_sec ride ->
  let r := setRide sv ion w (Some ride) in
  (exists k, 0 <= k < last_sec ride /\ series_of sv ride k < CP r) ->
  (IZR (WPRIME r)
   - big_sum (Z.to_nat (Z.min 1200 i))
       (fun j => IZR (excess_code (series_of sv ride) (CP r) (last_sec ride)
                                  (i - Z.of_nat j)%Z))
   <= aget 0 (values r) i <= IZR (WPRIME r))%R.
Proof.
  intros Hd Hw Hi; cbv zeta; rewrite (setRide_run sv ion w ride Hd Hw).
  apply run_value_bounds; exact Hi.
Qed.

(* ------------------------------------------------------------------ *)
(** ** The envelope [minY], [maxY] *)

Lemma max_update (v mx : R) : (if Rlt_dec mx v then v else mx) = Rmax v mx.
Proof.
  unfold Rmax; destruct (Rlt_dec mx v), (Rle_dec v mx); lra.
Qed.

Lemma deplete_maxY (inputArray : list Z) (wprime tau : Z) (l : list Z)
  (st : list R * list R * R * R) :
  snd (fold_left (deplete_step inputArray wprime tau) l st)
  = fold_left (fun mx i => Rmax (value_at inputArray wprime tau i) mx) l (snd st).
Proof.
  revert st; induction l as [|x l IH]; intros [[[vs xs] mn] mx]; [reflexivity|].
  cbn [fold_left]; unfold deplete_step at 2; rewrite IH; cbn [fst snd].
  rewrite max_update; reflexivity.
Qed.

Lemma fold_max_rev (f : Z -> R) (l : list Z) (a : R) :
  fold_left (fun mx i => Rmax (f i) mx) (rev l) a = fold_right Rmax a (map f l).
Proof.
  induction l as [|x l IH]; [reflexivity|].
  cbn [rev map fold_right]; rewrite fold_left_app; cbn [fold_left].
  rewrite IH; reflexivity.
Qed.

Lemma deplete_maxY_max (inputArray : list Z) (wprime tau last : Z) :
  snd (deplete inputArray wprime tau last)
  = seeded_max 0 (fst (fst (fst (deplete inputArray wprime tau last)))).
Proof.
  rewrite deplete_values_map; unfold deplete, seeded_max.
  rewrite deplete_maxY; cbn [fst snd].
  destruct (Z.le_gt_cases 0 (last + 1)) as [H|H].
  - replace last with (Z.of_nat (Z.to_nat (last + 1)) - 1) at 1 by lia.
    rewrite down_to_rev, Z2Nat.id by exact H.
    apply fold_max_rev.
  - unfold down_to, upto.
    replace (Z.to_nat (last - 0 + 1)) with O by lia.
    replace (Z.to_nat (last + 1)) with O by lia.
    reflexivity.
Qed.

Lemma setRide_maxY (sv : list QPointF -> Z -> Z) (ion : Z) (w : WPrime)
  (input : option RideFile) :
  maxY (setRide sv ion w input) = seeded_max 0 (values (setRide sv ion w input)).
Proof.
  unfold setRide; destruct input as [ride|]; [|reflexivity].
  destruct (_ || _); [reflexivity|].
  unfold run; cbn [maxY values]; apply deplete_maxY_max.
Qed.

Lemma seeded_min_le (seed : R) (vs : list R) :
  (seeded_min seed vs <= seed)%R
  /\ forall v, In v vs -> (seeded_min seed vs <= v)%R.
Proof.
  induction vs as [|x vs [IH1 IH2]]; cbn [seeded_min fold_right].
  - split; [lra|intros v []].
  - fold (seeded_min seed vs); split.
    + pose proof (Rmin_r x (seeded_min seed vs)); lra.
    + intros v [<-|Hv]; [apply Rmin_l|].
      pose proof (Rmin_r x (seeded_min seed vs)); specialize (IH2 v Hv); lra.
Qed.

Lemma seeded_max_ge (seed : R) (vs : list R) :
  (seed <= seeded_max seed vs)%R
  /\ forall v, In v vs -> (v <= seeded_max seed vs)%R.
Proof.
  induction vs as [|x vs [IH1 IH2]]; cbn [seeded_max fold_right].
  - split; [lra|intros v []].
  - fold (seeded_max seed vs); split.
    + pose proof (Rmax_r x (seeded_max seed vs)); lra.
    + intros v [<-|Hv]; [apply Rmax_l|].
      pose proof (Rmax_r x (seeded_max seed vs)); specialize (IH2 v Hv); lra.
Qed.

Lemma seeded_max_le_bound (seed b : R) (vs : list R) :
  (seed <= b)%R -> Forall (fun v => (v <= b)%R) vs -> (seeded_max seed vs <= b)%R.
Proof.
  intros Hs; induction 1 as [|x vs Hx _ IH]; cbn [seeded_max fold_right]; [exact Hs|].
  fold (seeded_max seed vs); apply Rmax_lub; assumption.
Qed.

(** X4: on a non-degenerate run with a second below CP, [minY] is the
    minimum and [maxY] the maximum of 0 and the depletion series: they enclose
    0 and every value of the series, and [maxY] is at most [max(0, W')]. *)
Theorem minY_maxY_envelope (sv : list QPointF -> Z -> Z) (ion : Z) (w : WPrime)
  (ride : RideFile) :
  dataPoints ride <> [] -> wattsPresent ride = true ->
  let r := setRide sv ion w (Some ride) in
  (exists k, 0 <= k < last_sec ride /\ series_of sv ride k < CP r) ->
  (minY r <= 0 <= maxY r)%R
  /\ Forall (fun v => (minY r <= v <= maxY r)%R) (values r)
  /\ minY r = seeded_min 0 (values r)
  /\ maxY r = seeded_max 0 (values r)
  /\ (maxY r <= Rmax 0 (IZR (WPRIME r)))%R.
Proof.
  intros Hd Hw; cbv zeta; rewrite (setRide_run sv ion w ride Hd Hw); intros Hex.
  pose proof (setRide_minY sv ion w (Some ride)) as Hmin.
  pose proof (setRide_maxY sv ion w (Some ride)) as Hmax.
  rewrite (setRide_run sv ion w ride Hd Hw) in Hmin, Hmax.
  destruct (seeded_min_le 0 (values (run sv ion ride))) as [H1 H2].
  destruct (seeded_max_ge 0 (values (run sv ion ride))) as [H3 H4].
  split; [lra|split; [|split; [exact Hmin|split; [exact Hmax|]]]].
  - apply Forall_forall; intros v Hv; rewrite Hmin, Hmax.
    split; [apply H2|apply H4]; exact Hv.
  - rewrite Hmax; apply seeded_max_le_bound; [apply Rmax_l|].
    apply Forall_forall; intros v Hv.
    apply (In_nth _ _ 0%R) in Hv; destruct Hv as (n & Hn & <-).
    assert (Hlen : Z.of_nat (length (values (run sv ion ride)))
                   = Z.max 0 (last_sec ride + 1))
      by (unfold run; cbn [values]; apply length_deplete_values).
    assert (Hi : 0 <= Z.of_nat n <= last_sec ride) by lia.
    pose proof (run_value_bounds sv ion ride (Z.of_nat n) Hi Hex) as [_ Hub].
    unfold aget in Hub; rewrite Nat2Z.id in Hub.
    pose proof (Rmax_r 0 (IZR (WPRIME (run sv ion ride)))); lra.
Qed.

(* ------------------------------------------------------------------ *)
(** ** The two series and the time axis *)

Lemma deplete_xvalues (inputArray : list Z) (wprime tau : Z) (l : list Z)
  (st : list R * list R * R * R) :
  snd (fst (fst (fold_left (deplete_step inputArray wprime tau) l st)))
  = fold_left (tabulate_step (fun i => (IZR i / 60)%R)) l (snd (fst (fst st))).
Proof.
  revert st; induction l as [|x l IH]; intros [[[vs xs] mn] mx]; [reflexivity|].
  simpl; rewrite IH; reflexivity.
Qed.

(** X5: [last] is the timestamp of the final sample; the depletion series
    and the time axis both have [last + 1] entries, and the time axis holds
    [i/60] at every second [i]. *)
Theorem series_length_and_time_axis (sv : list QPointF -> Z -> Z) (ion : Z)
  (w : WPrime) (ride : RideFile) (ps : list RideFilePoint) (p : RideFilePoint) :
  dataPoints ride = ps ++ [p] -> wattsPresent ride = true ->
  let r := setRide sv ion w (Some ride) in
  last_sec ride = secs p
  /\ Z.of_nat (length (values r)) = Z.max 0 (secs p + 1)
  /\ length (xvalues r) = length (values r)
  /\ forall i, 0 <= i <= secs p -> aget 0%R (xvalues r) i = (IZR i / 60)%R.
Proof.
  intros Hps Hw; cbv zeta.
  assert (Hd : dataPoints ride <> []) by (rewrite Hps; intros H; destruct ps; discriminate).
  rewrite (setRide_run sv ion w ride Hd Hw).
  assert (Hl : last_sec ride = secs p) by (unfold last_sec; rewrite Hps; apply last_of_snoc).
  split; [exact Hl|]; unfold run; cbn [values xvalues]; rewrite Hl.
  split; [apply length_deplete_values|split].
  - unfold deplete; rewrite deplete_values, deplete_xvalues, !length_tabulate.
    cbn [fst snd]; unfold rzeros; rewrite !repeat_length; reflexivity.
  - intros i Hi; unfold deplete; rewrite deplete_xvalues; cbn [fst snd].
    apply (aget_tabulate_in 0%R (fun k => (IZR k / 60)%R)).
    + rewrite length_rzeros; lia.
    + apply in_down_to; lia.
Qed.

(* ------------------------------------------------------------------ *)
(** ** The edges and the order of the matches *)

Lemma StronglySorted_snoc {A : Type} (rel : A -> A -> Prop) (l : list A) (x : A) :
  StronglySorted rel l -> Forall (fun a => rel a x) l ->
  StronglySorted rel (l ++ [x]).
Proof.
  induction l as [|a l IH]; intros Hs Hx; cbn [app].
  - constructor; constructor.
  - inversion Hs as [|? ? Hl Ha]; subst.
    inversion Hx as [|? ? Hax Hlx]; subst.
    constructor; [apply IH; assumption|].
    apply Forall_app; split; [exact Ha|constructor; [exact Hax|constructor]].
Qed.

Lemma match_edges_mono (smoothArray rawArray : list Z) (cp n n' : Z) (m : Match) :
  n <= n' -> match_edges smoothArray rawArray cp n m ->
  match_edges smoothArray rawArray cp n' m.
Proof.
  intros Hn (H1 & H2 & H3 & i & Hi & H4 & H5 & H6).
  split; [exact H1|split; [exact H2|split; [exact H3|]]].
  exists i; split; [lia|split; [exact H4|split; [exact H5|exact H6]]].
Qed.

Lemma both_below_bools (smoothArray rawArray : list Z) (cp i : Z) :
  (both_below smoothArray rawArray cp i
   /\ (aget 0 smoothArray i <? cp) && (aget 0 rawArray i <? cp) = true
   /\ (cp <=? aget 0 smoothArray i) || (cp <=? aget 0 rawArray i) = false)
  \/ (~ both_below smoothArray rawArray cp i
      /\ (aget 0 smoothArray i <? cp) && (aget 0 rawArray i <? cp) = false
      /\ (cp <=? aget 0 smoothArray i) || (cp <=? aget 0 rawArray i) = true).
Proof.
  unfold both_below.
  destruct (Z.ltb_spec (aget 0 smoothArray i) cp);
    destruct (Z.ltb_spec (aget 0 rawArray i) cp);
    destruct (Z.leb_spec cp (aget 0 smoothArray i));
    destruct (Z.leb_spec cp (aget 0 rawArray i));
    try lia; cbn [andb orb];
    first [left; split; [lia|split; reflexivity]
          |right; split; [lia|split; reflexivity]].
Qed.

Lemma scan_step_edges (smoothArray rawArray : list Z) (vs : list R) (cp i : Z)
  (st : bool * Z * list Match) :
  0 <= i ->
  scan_edges_inv smoothArray rawArray cp i st ->
  scan_edges_inv smoothArray rawArray cp (i + 1)
                 (scan_step smoothArray rawArray vs cp st i).
Proof.
  intros Hi; destruct st as [[inm mstart] ms]; intros (Hst & Hsort & Hms).
  assert (Hms' : Forall (match_edges smoothArray rawArray cp (i + 1)) ms).
  { eapply Forall_impl; [|exact Hms].
    intros m; apply match_edges_mono; lia. }
  unfold scan_step.
  destruct (both_below_bools smoothArray rawArray cp i)
    as [(Hbb & Hx & He)|(Hnb & Hx & He)]; rewrite Hx, He;
    destruct inm; cbn [negb andb]; unfold scan_edges_inv.
  - (* the turn that leaves the match *)
    destruct Hst as (H1 & H2 & H3 & H4 & H5).
    destruct (scan_back_spec rawArray cp mstart (Z.to_nat (i - 1 - mstart)) (i - 1))
      as (Ha & Hb & Hc); [lia|].
    set (e := scan_back (Z.to_nat (i - 1 - mstart)) rawArray cp mstart (i - 1)) in *.
    assert (Hold : Forall (fun m => stop m < i + 1) ms)
      by (eapply Forall_impl; [|exact H5]; intros m Hm; cbv beta in *; lia).
    assert (Hin : 0 < i + 1 -> both_below smoothArray rawArray cp (i + 1 - 1))
      by (intros _; replace (i + 1 - 1) with i by lia; exact Hbb).
    destruct (Z.ltb_spec mstart e) as [Hlt|_];
      [|split; [split; [exact Hin|exact Hold]|split; [exact Hsort|exact Hms']]].
    destruct (Rle_dec _ _) as [_|_];
      [|split; [split; [exact Hin|exact Hold]|split; [exact Hsort|exact Hms']]].
    split; [split; [exact Hin|]|split].
    + apply Forall_app; split; [exact Hold|constructor; [cbn [stop]; lia|constructor]].
    + apply StronglySorted_snoc; [exact Hsort|].
      eapply Forall_impl; [|exact H5]; intros m Hm; unfold before; cbn [start]; exact Hm.
    + apply Forall_app; split; [exact Hms'|constructor; [|constructor]].
      unfold match_edges; cbn [start stop].
      split; [lia|split; [exact H2|split; [exact H3|]]].
      exists i; split; [lia|split; [exact Hbb|split; [exact H4|]]].
      intros k Hk; destruct (Z.eq_dec k i) as [->|Hne];
        [apply Hbb|apply Hc; lia].
  - (* outside, and staying outside *)
    destruct Hst as (H1 & H2).
    split; [split|split; [exact Hsort|exact Hms']].
    + intros _; replace (i + 1 - 1) with i by lia; exact Hbb.
    + eapply Forall_impl; [|exact H2]; intros m Hm; cbv beta in *; lia.
  - (* inside, and staying inside *)
    destruct Hst as (H1 & H2 & H3 & H4 & H5).
    split; [|split; [exact Hsort|exact Hms']].
    split; [lia|split; [exact H2|split; [exact H3|split; [|exact H5]]]].
    intros k Hk; destruct (Z.eq_dec k i) as [->|Hne]; [exact Hnb|apply H4; lia].
  - (* the turn that enters a match *)
    destruct Hst as (H1 & H2).
    split; [|split; [exact Hsort|exact Hms']].
    split; [lia|split; [exact Hnb|split; [|split; [|exact H2]]]].
    + intros Hpos; apply H1; exact Hpos.
    + intros k Hk; replace k with i by lia; exact Hnb.
Qed.

Lemma scan_prefix_edges (smoothArray rawArray : list Z) (vs : list R) (cp : Z) (n : nat) :
  scan_edges_inv smoothArray rawArray cp (Z.of_nat n)
    (fold_left (scan_step smoothArray rawArray vs cp) (upto (Z.of_nat n))
               (false, 0, [])).
Proof.
  induction n as [|n IH].
  - cbn; repeat split; try constructor; lia.
  - replace (Z.of_nat (S n)) with (Z.of_nat n + 1) by lia.
    rewrite upto_succ, fold_left_app by lia.
    apply scan_step_edges; [lia|exact IH].
Qed.

Lemma find_matches_edges (smoothArray rawArray : list Z) (vs : list R) (cp last : Z) :
  StronglySorted before (find_matches smoothArray rawArray vs cp last)
  /\ Forall (match_edges smoothArray rawArray cp last)
            (find_matches smoothArray rawArray vs cp last).
Proof.
  unfold find_matches, scan.
  destruct (Z.le_gt_cases 0 last) as [H|H].
  - pose proof (scan_prefix_edges smoothArray rawArray vs cp (Z.to_nat last)) as Hinv.
    rewrite (Z2Nat.id last H) in Hinv.
    destruct (fold_left _ _ _) as [[inm mstart] ms].
    destruct Hinv as (_ & Hs & Hm); split; assumption.
  - unfold upto; replace (Z.to_nat last) with O by lia; split; constructor.
Qed.

Lemma run_matches_edges (sv : list QPointF -> Z -> Z) (ion : Z) (ride : RideFile) :
  StronglySorted before (matches (run sv ion ride))
  /\ Forall (match_edges (smoothArray_of (series_of sv ride) (last_sec ride))
                         (rawArray_of (series_of sv ride) (last_sec ride))
                         (CP (run sv ion ride)) (last_sec ride))
            (matches (run sv ion ride)).
Proof. apply find_matches_edges. Qed.

(** X6: the matches a run returns are in time order and do not overlap
    (each stops before the next starts); each lies within the seconds below
    [last - 1], and its duration is [stop - start + 1], at least 2. *)
Theorem matches_in_time_order (sv : list QPointF -> Z -> Z) (ion : Z)
  (w : WPrime) (ride : RideFile) :
  dataPoints ride <> [] -> wattsPresent ride = true ->
  let r := setRide sv ion w (Some ride) in
  StronglySorted (fun a b => stop a < start b) (matches r)
  /\ Forall (fun m => 0 <= start m /\ start m < stop m /\ stop m < last_sec ride - 1
                      /\ msecs m = stop m - start m + 1 /\ 2 <= msecs m)
            (matches r).
Proof.
  intros Hd Hw; cbv zeta; rewrite (setRide_run sv ion w ride Hd Hw); split.
  - apply run_matches_edges.
  - eapply Forall_impl; [|apply run_matches_ok].
    intros m (H1 & H2 & H3 & _ & _ & _ & _ & i & Hi & _).
    repeat split; lia.
Qed.

(** X7: every returned match starts at a second where the smoothed or the
    raw power is at or above CP, right after a second where both were below CP
    (unless it starts at second 0); up to the second that closes it the two
    are never both below CP, and after its stop the raw power is below CP up
    to and including the closing second. *)
Theorem matches_start_on_a_rising_edge (sv : list QPointF -> Z -> Z) (ion : Z)
  (w : WPrime) (ride : RideFile) :
  dataPoints ride <> [] -> wattsPresent ride = true ->
  let r := setRide sv ion w (Some ride) in
  let raw := rawArray_of (series_of sv ride) (last_sec ride) in
  let smooth := smoothArray_of (series_of sv ride) (last_sec ride) in
  Forall (fun m =>
            (CP r <= aget 0 smooth (start m) \/ CP r <= aget 0 raw (start m))
            /\ (0 < start m ->
                aget 0 smooth (start m - 1) < CP r /\ aget 0 raw (start m - 1) < CP r)
            /\ exists i, stop m < i < last_sec ride
                 /\ (forall k, start m <= k < i ->
                        CP r <= aget 0 smooth k \/ CP r <= aget 0 raw k)
                 /\ (forall k, stop m < k <= i -> aget 0 raw k < CP r))
         (matches r).
Proof.
  intros Hd Hw; cbv zeta; rewrite (setRide_run sv ion w ride Hd Hw).
  eapply Forall_impl; [|apply run_matches_edges].
  intros m (H1 & H2 & H3 & i & Hi & H4 & H5 & H6); unfold both_below in *.
  split; [lia|split; [exact H3|]].
  exists i; split; [exact Hi|split; [|exact H6]].
  intros k Hk; specialize (H5 k Hk); lia.
Qed.

(* ------------------------------------------------------------------ *)
(** ** The chart markers *)

Lemma markers_closed (vs xs : list R) (ms : list Match) :
  forall mv mx,
    fold_left (marker_step vs xs) ms (mv, mx)
    = (mv ++ marker_values (aget 0%R vs) ms, mx ++ marker_values (aget 0%R xs) ms).
Proof.
  induction ms as [|m ms IH]; intros mv mx; cbn [fold_left marker_values flat_map].
  - rewrite !app_nil_r; reflexivity.
  - unfold marker_step at 2; destruct (Rle_dec 2000 (cost m)); rewrite IH;
      fold (marker_values (aget 0%R vs) ms); fold (marker_values (aget 0%R xs) ms);
      rewrite <- ?app_assoc; reflexivity.
Qed.

Lemma marker_values_ext (f g : Z -> R) (ms : list Match) :
  Forall (fun m => f (start m) = g (start m) /\ f (stop m) = g (stop m)) ms ->
  marker_values f ms = marker_values g ms.
Proof.
  induction 1 as [|m ms [H1 H2] _ IH]; [reflexivity|].
  cbn [marker_values flat_map]; fold (marker_values f ms); fold (marker_values g ms).
  rewrite IH, H1, H2; reflexivity.
Qed.

Lemma marker_values_length (f g : Z -> R) (ms : list Match) :
  length (marker_values f ms) = length (marker_values g ms).
Proof.
  induction ms as [|m ms IH]; [reflexivity|].
  cbn [marker_values flat_map]; fold (marker_values f ms); fold (marker_values g ms).
  rewrite !length_app, IH; destruct (Rle_dec 2000 (cost m)); reflexivity.
Qed.

Lemma run_xvalues (sv : list QPointF -> Z -> Z) (ion : Z) (ride : RideFile) (i : Z) :
  0 <= i <= last_sec ride ->
  aget 0%R (xvalues (run sv ion ride)) i = (IZR i / 60)%R.
Proof.
  intros Hi; unfold run; cbn [xvalues]; unfold deplete.
  rewrite deplete_xvalues; cbn [fst snd].
  apply (aget_tabulate_in 0%R (fun k => (IZR k / 60)%R)).
  - rewrite length_rzeros; lia.
  - apply in_down_to; lia.
Qed.

(** X8: the marker series hold, for every match that costs 2000 J or more
    and in the order of the matches, the depletion at its start and stop and
    the minutes [start/60], [stop/60]; the two series have the same length. *)
Theorem markers_of_the_costly_matches (sv : list QPointF -> Z -> Z) (ion : Z)
  (w : WPrime) (ride : RideFile) :
  dataPoints ride <> [] -> wattsPresent ride = true ->
  let r := setRide sv ion w (Some ride) in
  mvalues r = marker_values (aget 0%R (values r)) (matches r)
  /\ mxvalues r = marker_values (fun i => (IZR i / 60)%R) (matches r)
  /\ length (mvalues r) = length (mxvalues r).
Proof.
  intros Hd Hw; cbv zeta; rewrite (setRide_run sv ion w ride Hd Hw).
  assert (Hm : mvalues (run sv ion ride)
               = marker_values (aget 0%R (values (run sv ion ride)))
                               (matches (run sv ion ride))
               /\ mxvalues (run sv ion ride)
                  = marker_values (aget 0%R (xvalues (run sv ion ride)))
                                  (matches (run sv ion ride))).
  { unfold run; cbn [mvalues mxvalues values xvalues matches].
    rewrite markers_closed; cbn [fst snd app]; split; reflexivity. }
  destruct Hm as [Hmv Hmx]; rewrite Hmv, Hmx.
  split; [reflexivity|split; [|apply marker_values_length]].
  apply marker_values_ext.
  eapply Forall_impl; [|apply run_matches_ok].
  intros m (H1 & H2 & _ & _ & _ & _ & _ & i & Hi & _).
  split; apply run_xvalues; lia.
Qed.

(* ------------------------------------------------------------------ *)
(** ** Samples in time order *)

Lemma StronglySorted_app {A : Type} (rel : A -> A -> Prop) (l1 l2 : list A) :
  StronglySorted rel l1 -> StronglySorted rel l2 ->
  (forall a b, In a l1 -> In b l2 -> rel a b) ->
  StronglySorted rel (l1 ++ l2).
Proof.
  induction l1 as [|a l1 IH]; intros H1 H2 H12; cbn [app]; [exact H2|].
  inversion H1 as [|? ? Hl Ha]; subst.
  constructor.
  - apply IH; [exact Hl|exact H2|].
    intros x y Hx Hy; apply H12; [right; exact Hx|exact Hy].
  - apply Forall_app; split; [exact Ha|].
    apply Forall_forall; intros y Hy; apply H12; [left; reflexivity|exact Hy].
Qed.

Lemma multiples_sorted (a rec : Z) (n : nat) :
  0 < rec ->
  forall s, StronglySorted Z.lt (map (fun k => a + Z.of_nat k * rec) (seq s n)).
Proof.
  intros Hrec; induction n as [|n IH]; intros s; cbn [seq map]; constructor.
  - apply IH.
  - apply Forall_forall; intros y Hy.
    apply in_map_iff in Hy; destruct Hy as (k & <- & Hk).
    apply in_seq in Hk; nia.
Qed.

Lemma zeros_between_xs (a b rec : Z) :
  0 < rec ->
  StronglySorted Z.lt (map fst (zeros_between a b rec))
  /\ Forall (fun x => a < x < b) (map fst (zeros_between a b rec)).
Proof.
  intros Hrec; split.
  - unfold zeros_between; rewrite map_map; cbn [fst].
    apply multiples_sorted; exact Hrec.
  - apply Forall_forall; intros x Hx.
    apply in_map_iff in Hx; destruct Hx as (q & <- & Hq).
    apply in_zeros_between in Hq; [|exact Hrec].
    destruct Hq as (k & Hk & Hlt & ->); cbn [fst]; nia.
Qed.

Lemma zeros_between_none (a b rec : Z) : 0 < rec -> b <= a + rec -> zeros_between a b rec = [].
Proof.
  intros Hrec Hb; unfold zeros_between.
  assert ((b - a - 1) / rec < 1) by (apply Z.div_lt_upper_bound; lia).
  replace (Z.to_nat _) with O by lia; reflexivity.
Qed.

(** The invariant of the [foreach] on samples in time order. *)
Lemma sample_step_sorted (rec : Z) (pts : list QPointF) (l : Z)
  (lp : option RideFilePoint) (p : RideFilePoint) :
  0 < rec ->
  StronglySorted Z.lt (map fst pts) ->
  match lp with
  | Some q => Forall (fun x => x <= secs q) (map fst pts) /\ secs q <= secs p
  | None => pts = []
  end ->
  StronglySorted Z.lt (map fst (fst (fst (sample_step rec (pts, l, lp) p))))
  /\ Forall (fun x => x <= secs p) (map fst (fst (fst (sample_step rec (pts, l, lp) p)))).
Proof.
  intros Hrec Hs Hlp; destruct lp as [q|]; cbn [sample_step fst].
  - destruct Hlp as [Hb Hq]; rewrite fill_gap_closed by exact Hrec.
    destruct (zeros_between_xs (secs q) (secs p) rec Hrec) as [Hz1 Hz2].
    assert (H1 : StronglySorted Z.lt (map fst (pts ++ zeros_between (secs q) (secs p) rec))).
    { rewrite map_app; apply StronglySorted_app; [exact Hs|exact Hz1|].
      intros x y Hx Hy; rewrite Forall_forall in Hb, Hz2.
      specialize (Hb x Hx); specialize (Hz2 y Hy); lia. }
    assert (H2 : Forall (fun x => x <= secs p)
                        (map fst (pts ++ zeros_between (secs q) (secs p) rec))).
    { rewrite map_app; apply Forall_app; split.
      - eapply Forall_impl; [|exact Hb]; cbv beta; intros; lia.
      - eapply Forall_impl; [|exact Hz2]; cbv beta; intros; lia. }
    destruct (Z.ltb_spec (secs q) (secs p)) as [Hlt|Hge]; [|split; assumption].
    rewrite !map_app; cbn [map fst]; split.
    + rewrite <- map_app; apply StronglySorted_app; [exact H1|repeat constructor|].
      intros x y Hx [<-|[]].
      rewrite map_app in Hx; apply in_app_or in Hx; destruct Hx as [Hx|Hx].
      * rewrite Forall_forall in Hb; specialize (Hb x Hx); lia.
      * rewrite Forall_forall in Hz2; specialize (Hz2 x Hx); lia.
    + rewrite <- map_app; apply Forall_app; split; [exact H2|].
      constructor; [lia|constructor].
  - subst pts; cbn; split; repeat constructor; lia.
Qed.

Lemma collect_sorted (rec : Z) (ps : list RideFilePoint) :
  0 < rec ->
  forall (pts : list QPointF) (l : Z) (lp : option RideFilePoint),
    StronglySorted (fun a b => secs a <= secs b) ps ->
    StronglySorted Z.lt (map fst pts) ->
    match lp with
    | Some q => Forall (fun x => x <= secs q) (map fst pts)
                /\ Forall (fun p => secs q <= secs p) ps
    | None => pts = []
    end ->
    StronglySorted Z.lt
      (map fst (fst (fst (fold_left (sample_step rec) ps (pts, l, lp))))).
Proof.
  intros Hrec; induction ps as [|p ps IH]; intros pts l lp Hps Hs Hlp;
    cbn [fold_left]; [exact Hs|].
  inversion Hps as [|? ? Hps' Hp]; subst.
  destruct (sample_step_sorted rec pts l lp p Hrec Hs) as [H1 H2].
  { destruct lp as [q|]; [|exact Hlp].
    destruct Hlp as [Hb Hq]; split; [exact Hb|].
    inversion Hq; assumption. }
  destruct (sample_step rec (pts, l, lp) p) as [[pts' l'] lp'] eqn:Hst.
  assert (Hlp' : lp' = Some p)
    by (pose proof (sample_step_state rec (pts, l, lp) p) as [_ H]; rewrite Hst in H; exact H).
  subst lp'; cbn [fst] in H1, H2.
  apply IH; [exact Hps'|exact H1|split; [exact H2|exact Hp]].
Qed.

(** X9: for samples in non-decreasing time order and a positive recording
    interval, the points handed to the spline have strictly increasing
    abscissae (so none is repeated), the first being the first sample. *)
Theorem points_strictly_increasing (rec : Z) (p0 : RideFilePoint)
  (t : list RideFilePoint) :
  0 < rec ->
  StronglySorted (fun a b => secs a <= secs b) (p0 :: t) ->
  StronglySorted Z.lt (map fst (points_of rec (p0 :: t)))
  /\ NoDup (map fst (points_of rec (p0 :: t)))
  /\ exists rest, points_of rec (p0 :: t) = (secs p0, watts p0) :: rest.
Proof.
  intros Hrec Hps.
  assert (Hs : StronglySorted Z.lt (map fst (points_of rec (p0 :: t))))
    by (apply collect_sorted; [exact Hrec|exact Hps|constructor|reflexivity]).
  split; [exact Hs|split].
  - apply StronglySorted_Sorted in Hs.
    clear -Hs; induction (map fst _) as [|x xs IH]; [constructor|].
    apply Sorted_StronglySorted in Hs; [|intros a b c; apply Z.lt_trans].
    inversion Hs as [|? ? Hs' Hx]; subst; constructor.
    + intros Hin; rewrite Forall_forall in Hx; specialize (Hx x Hin); lia.
    + apply IH, StronglySorted_Sorted, Hs'.
  - unfold points_of, collect_points; cbn [fold_left].
    destruct (collect_grows rec t (sample_step rec ([], 0, None) p0)) as [l2 ->].
    exists l2; reflexivity.
Qed.

(* ------------------------------------------------------------------ *)
(** ** Samples that leave no gap *)

Lemma collect_paced (rec : Z) (ps : list RideFilePoint) :
  forall (pts : list QPointF) (l : Z) (q : RideFilePoint),
    paced rec (secs q) ps ->
    fst (fst (fold_left (sample_step rec) ps (pts, l, Some q)))
    = pts ++ map point_of ps.
Proof.
  induction ps as [|p ps IH]; intros pts l q Hp; cbn [fold_left map].
  - rewrite app_nil_r; reflexivity.
  - destruct Hp as [Hq Hp]; cbn [sample_step].
    unfold fill_gap.
    replace (Z.to_nat (secs p - (secs q + rec))) with O by lia.
    cbn [gap_times map]; rewrite app_nil_r.
    destruct (Z.ltb_spec (secs q) (secs p)) as [_|Hge]; [|lia].
    rewrite IH by exact Hp.
    rewrite <- app_assoc; reflexivity.
Qed.

Lemma paced_increasing (rec prev : Z) (ps : list RideFilePoint) :
  paced rec prev ps ->
  Forall (fun p => prev < secs p) ps /\ NoDup (map secs ps).
Proof.
  revert prev; induction ps as [|p ps IH]; intros prev Hp; cbn [map].
  - split; constructor.
  - destruct Hp as [Hq Hp]; destruct (IH (secs p) Hp) as [H1 H2]; split.
    + constructor; [lia|].
      eapply Forall_impl; [|exact H1]; cbv beta; intros; lia.
    + constructor; [|exact H2].
      intros Hin; apply in_map_iff in Hin; destruct Hin as (x & Hx & Hin).
      rewrite Forall_forall in H1; specialize (H1 x Hin); lia.
Qed.

(** X10: when every sample follows the one before by more than zero and at
    most one recording interval, the points handed to the spline are the
    samples themselves, and an interpolant through its knots returns each
    sample's power at its timestamp. *)
Theorem gap_free_samples_are_the_points (sv : list QPointF -> Z -> Z) (rec : Z)
  (p0 : RideFilePoint) (t : list RideFilePoint) :
  paced rec (secs p0) t ->
  passes_through_knots sv ->
  points_of rec (p0 :: t) = map point_of (p0 :: t)
  /\ forall p, In p (p0 :: t) -> sv (points_of rec (p0 :: t)) (secs p) = watts p.
Proof.
  intros Hp Hsv.
  assert (Hpts : points_of rec (p0 :: t) = map point_of (p0 :: t)).
  { unfold points_of, collect_points; cbn [fold_left sample_step app].
    rewrite collect_paced by exact Hp; reflexivity. }
  split; [exact Hpts|].
  intros p Hin; rewrite Hpts; apply Hsv.
  - rewrite map_map; cbn [point_of fst].
    destruct (paced_increasing rec (secs p0) t Hp) as [H1 H2].
    cbn [map]; constructor; [|exact H2].
    intros Hin0; apply in_map_iff in Hin0; destruct Hin0 as (x & Hx & Hin0).
    rewrite Forall_forall in H1; specialize (H1 x Hin0); lia.
  - change (secs p, watts p) with (point_of p); apply in_map; exact Hin.
Qed.

Lemma gap_free_samples_are_the_points_witness :
  paced 1 (secs (mkPoint 0 120)) [mkPoint 1 130; mkPoint 2 140]
  /\ passes_through_knots knot_value
  /\ points_of 1 [mkPoint 0 120; mkPoint 1 130; mkPoint 2 140]
     = [(0, 120); (1, 130); (2, 140)]
  /\ knot_value (points_of 1 [mkPoint 0 120; mkPoint 1 130; mkPoint 2 140]) 1 = 130.
Proof.
  assert (H1 : paced 1 (secs (mkPoint 0 120)) [mkPoint 1 130; mkPoint 2 140])
    by (cbn; lia).
  destruct (gap_free_samples_are_the_points knot_value 1 (mkPoint 0 120)
              [mkPoint 1 130; mkPoint 2 140] H1 knot_value_passes) as [Ha Hb].
  split; [exact H1|split; [exact knot_value_passes|split; [exact Ha|]]].
  exact (Hb (mkPoint 1 130) (or_intror (or_introl eq_refl))).
Defined.

(* ------------------------------------------------------------------ *)
(** ** The window of the sum of products *)

(** X11: with the thresholds fixed, the depletion at second [i] depends on
    the series only at the seconds [max(1, i-1199) .. i] below [last]: the
    power at second 0 and the power more than 1199 seconds back play no
    part. *)
Theorem depletion_depends_on_the_window_only (series series' : Z -> Z)
  (cp wprime tau last i : Z) :
  0 <= i <= last ->
  (forall k, 1 <= k -> i - 1199 <= k <= i -> k < last -> series k = series' k) ->
  aget 0%R (depletion series cp wprime tau last) i
  = aget 0%R (depletion series' cp wprime tau last) i.
Proof.
  intros Hi Hag; rewrite !depletion_sum by exact Hi.
  unfold depletion_spec; f_equal.
  apply big_sum_ext; intros k Hk; f_equal; f_equal.
  unfold excess_code.
  destruct (Z.ltb_spec (i - Z.of_nat k) last) as [Hlt|_]; [|reflexivity].
  rewrite (Hag (i - Z.of_nat k)) by lia; reflexivity.
Qed.

(* ------------------------------------------------------------------ *)
(** ** A ride that never goes above CP *)

(** X12: on a run whose power is never above CP (and below it at some
    second), the depletion series is W' at every second and there are no
    matches and no markers. *)
Theorem ride_never_above_CP (sv : list QPointF -> Z -> Z) (ion : Z)
  (w : WPrime) (ride : RideFile) :
  dataPoints ride <> [] -> wattsPresent ride = true ->
  let r := setRide sv ion w (Some ride) in
  (forall k, 0 <= k < last_sec ride -> series_of sv ride k <= CP r) ->
  (exists k, 0 <= k < last_sec ride /\ series_of sv ride k < CP r) ->
  (forall i, 0 <= i <= last_sec ride -> aget 0%R (values r) i = IZR (WPRIME r))
  /\ matches r = [] /\ mvalues r = [] /\ mxvalues r = [].
Proof.
  intros Hd Hw; cbv zeta; rewrite (setRide_run sv ion w ride Hd Hw); intros Hle _.
  assert (Hv : forall i, 0 <= i <= last_sec ride ->
                         aget 0%R (values (run sv ion ride)) i
                         = IZR (WPRIME (run sv ion ride))).
  { intros i Hi; rewrite run_depletion_sum by exact Hi.
    unfold depletion_spec.
    rewrite (big_sum_ext _ _ (fun _ => 0%R)).
    - rewrite big_sum_zero by reflexivity; lra.
    - intros k Hk; unfold excess_code.
      destruct (Z.ltb_spec (i - Z.of_nat k) (last_sec ride)) as [Hlt|_]; [|lra].
      specialize (Hle (i - Z.of_nat k) ltac:(lia)).
      rewrite Z.max_l by lia; lra. }
  assert (Hm : matches (run sv ion ride) = []).
  { pose proof (run_matches_ok sv ion ride) as Hok.
    destruct (matches (run sv ion ride)) as [|m ms]; [reflexivity|exfalso].
    inversion Hok as [|? ? (H1 & H2 & _ & H4 & H5 & _ & _ & i & Hi & _) _]; subst.
    rewrite !Hv in H5 by lia.
    unfold WprimeMatchMinJoules in H4; lra. }
  split; [exact Hv|split; [exact Hm|]].
  change (mvalues (run sv ion ride))
    with (fst (fold_left (marker_step (values (run sv ion ride))
                                      (xvalues (run sv ion ride)))
                         (matches (run sv ion ride)) ([], []))).
  change (mxvalues (run sv ion ride))
    with (snd (fold_left (marker_step (values (run sv ion ride))
                                      (xvalues (run sv ion ride)))
                         (matches (run sv ion ride)) ([], []))).
  rewrite Hm; split; reflexivity.
Qed.

Lemma ride_never_above_CP_witness :
  let r := setRide knot_value 0 WPrime_new (Some rest_ride) in
  dataPoints rest_ride <> []
  /\ wattsPresent rest_ride = true
  /\ (forall k, 0 <= k < last_sec rest_ride -> series_of knot_value rest_ride k <= CP r)
  /\ aget 0%R (values r) 1 = IZR (WPRIME r)
  /\ matches r = [].
Proof.
  cbv zeta.
  assert (H1 : dataPoints rest_ride <> []) by discriminate.
  assert (H2 : wattsPresent rest_ride = true) by reflexivity.
  assert (H3 : forall k, 0 <= k < last_sec rest_ride ->
                 series_of knot_value rest_ride k
                 <= CP (setRide knot_value 0 WPrime_new (Some rest_ride))).
  { intros k Hk; change (last_sec rest_ride) with 2 in Hk.
    assert (Hc : k = 0 \/ k = 1) by lia.
    destruct Hc as [->| ->]; lazy; discriminate. }
  assert (H4 : exists k, 0 <= k < last_sec rest_ride
                         /\ series_of knot_value rest_ride k
                            < CP (setRide knot_value 0 WPrime_new (Some rest_ride))).
  { exists 0; split; [change (last_sec rest_ride) with 2; lia|lazy; reflexivity]. }
  destruct (ride_never_above_CP knot_value 0 WPrime_new rest_ride H1 H2 H3 H4)
    as (Ha & Hb & _).
  split; [exact H1|split; [exact H2|split; [exact H3|split; [|exact Hb]]]].
  apply Ha; change (last_sec rest_ride) with 2; lia.
Defined.

(* ------------------------------------------------------------------ *)
(** ** The smoothed array of a run *)

Lemma fill_arrays_same (series : Z -> Z) (last : Z) :
  fst (fill_arrays series last) = rawArray_of series last.
Proof. unfold rawArray_of, fill_arrays; rewrite fill_arrays_both; reflexivity. Qed.

Lemma length_rawArray (series : Z -> Z) (last : Z) :
  Z.of_nat (length (rawArray_of series last)) = Z.max 0 (last + 1).
Proof.
  unfold rawArray_of, fill_arrays; rewrite fill_arrays_both; cbn [snd].
  rewrite length_tabulate; apply length_zeros.
Qed.

Lemma length_rolling_fold (l : list Z) :
  forall st, length (fst (fold_left rolling_step l st)) = length (fst st).
Proof.
  induction l as [|x l IH]; intros [a rt]; [reflexivity|].
  cbn [fold_left]; rewrite IH; unfold rolling_step; cbn [fst].
  apply length_aset.
Qed.

(** X13: the smoothed array has the length of the raw one; below index 25
    it holds the raw value, from 25 on the sum of the 25 raw values that end
    at the index plus [raw[last-25]], over 25 (truncated); a run of fewer
    than 26 seconds is not smoothed at all. *)
Theorem smoothed_array_of_a_run (series : Z -> Z) (last i : Z) :
  0 <= i <= last ->
  let raw := rawArray_of series last in
  let smooth := smoothArray_of series last in
  length smooth = length raw
  /\ aget 0 smooth i
     = (if i <? 25 then aget 0 raw i
        else (window_sum raw (i - 24) 25 + aget 0 raw (last - 25)) ÷ 25)
  /\ (last < 25 -> smooth = raw).
Proof.
  intros Hi; cbv zeta; unfold smoothArray_of; rewrite fill_arrays_same.
  split; [|split].
  - unfold rolling; apply length_rolling_fold.
  - rewrite rolling_value; [|rewrite length_rawArray; lia|exact Hi].
    destruct (arrays_zero_at_last series 0 last) as (_ & _ & Hz).
    rewrite Hz, Z.sub_0_r; reflexivity.
  - intros H25; unfold rolling, down_to, WprimeMatchSmoothing.
    replace (Z.to_nat (last - 25 + 1)) with O by lia; reflexivity.
Qed.

Lemma smoothed_array_of_a_run_witness :
  0 <= 3 <= 5
  /\ smoothArray_of (fun i => 100 * i) 5 = rawArray_of (fun i => 100 * i) 5
  /\ aget 0 (smoothArray_of (fun i => 100 * i) 5) 3 = 300.
Proof.
  assert (H : 0 <= 3 <= 5) by lia.
  destruct (smoothed_array_of_a_run (fun i => 100 * i) 5 3 H) as (_ & Hb & Hc).
  split; [exact H|split; [apply Hc; lia|exact Hb]].
Defined.

(* ------------------------------------------------------------------ *)
(** ** Instances *)

Lemma surge_ride_has_a_rest_second :
  exists k, 0 <= k < last_sec surge_ride
            /\ series_of knot_value surge_ride k
               < CP (setRide knot_value 0 WPrime_new (Some surge_ride)).
Proof. exists 2; split; [change (last_sec surge_ride) with 3; lia|lazy; reflexivity]. Qed.

Lemma TAU_range_with_a_below_CP_second_witness :
  let r := setRide knot_value 0 WPrime_new (Some surge_ride) in
  dataPoints surge_ride <> [] /\ wattsPresent surge_ride = true
  /\ (exists k, 0 <= k < last_sec surge_ride /\ series_of knot_value surge_ride k < CP r)
  /\ 316 <= TAU r <= 861.
Proof.
  cbv zeta.
  assert (H1 : dataPoints surge_ride <> []) by discriminate.
  assert (H2 : wattsPresent surge_ride = true) by reflexivity.
  split; [exact H1|split; [exact H2|split; [exact surge_ride_has_a_rest_second|]]].
  exact (TAU_range_with_a_below_CP_second knot_value 0 WPrime_new surge_ride H1 H2
           surge_ride_has_a_rest_second).
Defined.

Lemma no_zone_range_leaves_TAU_undefined_witness :
  let r := setRide knot_value 7 WPrime_new (Some unzoned_ride) in
  dataPoints unzoned_ride <> [] /\ wattsPresent unzoned_ride = true
  /\ whichRange (mkZones (fun _ => -1) (fun _ => 300) (fun _ => 20000))
                (startDate unzoned_ride) < 0
  /\ (forall i, 0 <= i < last_sec unzoned_ride -> 0 <= series_of knot_value unzoned_ride i)
  /\ CP r = 0 /\ WPRIME r = 0 /\ TAU r = 7.
Proof.
  cbv zeta.
  assert (H1 : dataPoints unzoned_ride <> []) by discriminate.
  assert (H2 : wattsPresent unzoned_ride = true) by reflexivity.
  assert (H3 : whichRange (mkZones (fun _ => -1) (fun _ => 300) (fun _ => 20000))
                          (startDate unzoned_ride) < 0) by (cbn; lia).
  assert (H4 : forall i, 0 <= i < last_sec unzoned_ride ->
                         0 <= series_of knot_value unzoned_ride i).
  { intros i Hi; change (last_sec unzoned_ride) with 2 in Hi.
    assert (Hc : i = 0 \/ i = 1) by lia.
    destruct Hc as [->| ->]; lazy; discriminate. }
  destruct (no_zone_range_leaves_TAU_undefined knot_value 7 WPrime_new unzoned_ride
              _ H1 H2 eq_refl H3 H4) as (Ha & Hb & _ & Hc).
  split; [exact H1|split; [exact H2|split; [exact H3|split; [exact H4|]]]].
  split; [exact Ha|split; [exact Hb|exact Hc]].
Defined.

Lemma depletion_bounds_witness :
  let r := setRide knot_value 0 WPrime_new (Some surge_ride) in
  dataPoints surge_ride <> [] /\ wattsPresent surge_ride = true
  /\ 0 <= 1 <= last_sec surge_ride
  /\ (aget 0 (values r) 1 <= IZR (WPRIME r))%R.
Proof.
  cbv zeta.
  assert (H1 : dataPoints surge_ride <> []) by discriminate.
  assert (H2 : wattsPresent surge_ride = true) by reflexivity.
  assert (H3 : 0 <= 1 <= last_sec surge_ride) by (change (last_sec surge_ride) with 3; lia).
  split; [exact H1|split; [exact H2|split; [exact H3|]]].
  exact (proj2 (depletion_bounds knot_value 0 WPrime_new surge_ride 1 H1 H2 H3
                  surge_ride_has_a_rest_second)).
Defined.

Lemma minY_maxY_envelope_witness :
  let r := setRide knot_value 0 WPrime_new (Some surge_ride) in
  dataPoints surge_ride <> [] /\ wattsPresent surge_ride = true
  /\ (minY r <= 0 <= maxY r)%R
  /\ Forall (fun v => (minY r <= v <= maxY r)%R) (values r).
Proof.
  cbv zeta.
  assert (H1 : dataPoints surge_ride <> []) by discriminate.
  assert (H2 : wattsPresent surge_ride = true) by reflexivity.
  destruct (minY_maxY_envelope knot_value 0 WPrime_new surge_ride H1 H2
              surge_ride_has_a_rest_second) as (Ha & Hb & _).
  split; [exact H1|split; [exact H2|split; [exact Ha|exact Hb]]].
Defined.

Lemma series_length_and_time_axis_witness :
  let r := setRide knot_value 0 WPrime_new (Some surge_ride) in
  dataPoints surge_ride
  = [mkPoint 0 1000; mkPoint 1 1000; mkPoint 2 0] ++ [mkPoint 3 0]
  /\ wattsPresent surge_ride = true
  /\ last_sec surge_ride = 3
  /\ Z.of_nat (length (values r)) = 4
  /\ length (xvalues r) = length (values r).
Proof.
  cbv zeta.
  assert (H1 : dataPoints surge_ride
               = [mkPoint 0 1000; mkPoint 1 1000; mkPoint 2 0] ++ [mkPoint 3 0])
    by reflexivity.
  assert (H2 : wattsPresent surge_ride = true) by reflexivity.
  destruct (series_length_and_time_axis knot_value 0 WPrime_new surge_ride _ _ H1 H2)
    as (Ha & Hb & Hc & _).
  split; [exact H1|split; [exact H2|split; [exact Ha|split; [exact Hb|exact Hc]]]].
Defined.

Lemma matches_in_time_order_witness :
  let r := setRide knot_value 0 WPrime_new (Some surge_ride) in
  dataPoints surge_ride <> [] /\ wattsPresent surge_ride = true
  /\ StronglySorted (fun a b => stop a < start b) (matches r).
Proof.
  cbv zeta.
  assert (H1 : dataPoints surge_ride <> []) by discriminate.
  assert (H2 : wattsPresent surge_ride = true) by reflexivity.
  split; [exact H1|split; [exact H2|]].
  exact (proj1 (matches_in_time_order knot_value 0 WPrime_new surge_ride H1 H2)).
Defined.

Lemma matches_start_on_a_rising_edge_witness :
  let r := setRide knot_value 0 WPrime_new (Some surge_ride) in
  let raw := rawArray_of (series_of knot_value surge_ride) (last_sec surge_ride) in
  let smooth := smoothArray_of (series_of knot_value surge_ride) (last_sec surge_ride) in
  dataPoints surge_ride <> [] /\ wattsPresent surge_ride = true
  /\ Forall (fun m =>
               CP r <= aget 0 smooth (start m) \/ CP r <= aget 0 raw (start m))
            (matches r).
Proof.
  cbv zeta.
  assert (H1 : dataPoints surge_ride <> []) by discriminate.
  assert (H2 : wattsPresent surge_ride = true) by reflexivity.
  split; [exact H1|split; [exact H2|]].
  eapply Forall_impl;
    [|exact (matches_start_on_a_rising_edge knot_value 0 WPrime_new surge_ride H1 H2)].
  intros m [H _]; exact H.
Defined.

Lemma markers_of_the_costly_matches_witness :
  let r := setRide knot_value 0 WPrime_new (Some surge_ride) in
  dataPoints surge_ride <> [] /\ wattsPresent surge_ride = true
  /\ length (mvalues r) = length (mxvalues r).
Proof.
  cbv zeta.
  assert (H1 : dataPoints surge_ride <> []) by discriminate.
  assert (H2 : wattsPresent surge_ride = true) by reflexivity.
  split; [exact H1|split; [exact H2|]].
  exact (proj2 (proj2 (markers_of_the_costly_matches knot_value 0 WPrime_new
                         surge_ride H1 H2))).
Defined.

Lemma points_strictly_increasing_witness :
  0 < 1
  /\ StronglySorted (fun a b => secs a <= secs b)
       [mkPoint 0 100; mkPoint 0 50; mkPoint 3 70]
  /\ points_of 1 [mkPoint 0 100; mkPoint 0 50; mkPoint 3 70]
     = [(0, 100); (1, 0); (2, 0); (3, 70)]
  /\ StronglySorted Z.lt
       (map fst (points_of 1 [mkPoint 0 100; mkPoint 0 50; mkPoint 3 70])).
Proof.
  assert (H1 : 0 < 1) by lia.
  assert (H2 : StronglySorted (fun a b => secs a <= secs b)
                 [mkPoint 0 100; mkPoint 0 50; mkPoint 3 70])
    by (repeat constructor; cbn; lia).
  split; [exact H1|split; [exact H2|split; [reflexivity|]]].
  exact (proj1 (points_strictly_increasing 1 (mkPoint 0 100)
                  [mkPoint 0 50; mkPoint 3 70] H1 H2)).
Defined.

Lemma depletion_depends_on_the_window_only_witness :
  0 <= 2 <= 3
  /\ (forall k, 1 <= k -> 2 - 1199 <= k <= 2 -> k < 3 ->
        (fun _ : Z => 300) k = (fun j : Z => if j =? 0 then 0 else 300) k)
  /\ aget 0%R (depletion (fun _ => 300) 250 20000 400 3) 2
     = aget 0%R (depletion (fun j => if j =? 0 then 0 else 300) 250 20000 400 3) 2.
Proof.
  assert (H1 : 0 <= 2 <= 3) by lia.
  assert (H2 : forall k, 1 <= k -> 2 - 1199 <= k <= 2 -> k < 3 ->
                 (fun _ : Z => 300) k = (fun j : Z => if j =? 0 then 0 else 300) k).
  { intros k Hk _ _; cbv beta; destruct (Z.eqb_spec k 0); [lia|reflexivity]. }
  split; [exact H1|split; [exact H2|]].
  exact (depletion_depends_on_the_window_only _ _ 250 20000 400 3 2 H1 H2).
Defined.

(* ------------------------------------------------------------------ *)
(** ** The final second, again *)

Lemma length_smoothArray (series : Z -> Z) (last : Z) :
  Z.of_nat (length (smoothArray_of series last)) = Z.max 0 (last + 1).
Proof.
  unfold smoothArray_of, rolling; rewrite length_rolling_fold; cbn [fst].
  rewrite fill_arrays_same; apply length_rawArray.
Qed.

(** After the backward pass the smoothed array holds at [last] the mean of
    the 25 seconds before it, and 0 on a run of fewer than 26 seconds. *)
Lemma smoothArray_at_last (series : Z -> Z) (last : Z) :
  aget 0 (smoothArray_of series last) last
  = if last <? 25 then 0
    else window_sum (rawArray_of series last) (last - 25) 25 ÷ 25.
Proof.
  destruct (Z.le_gt_cases 0 last) as [H0|H0].
  - unfold smoothArray_of; rewrite fill_arrays_same.
    rewrite rolling_value by (rewrite ?length_rawArray; lia).
    destruct (arrays_zero_at_last series 0 last) as (_ & _ & Hz).
    destruct (Z.ltb_spec last 25) as [_|H25]; [exact Hz|].
    f_equal.
    replace (last - 24) with (last - 25 + 1) by lia.
    rewrite (window_sum_shift (rawArray_of series last) (last - 25) 24).
    replace (last - 25 + 1 + Z.of_nat 24) with last by lia; lia.
  - destruct (Z.ltb_spec last 25) as [_|H25]; [|lia].
    pose proof (length_smoothArray series last) as Hlen.
    unfold aget; apply nth_overflow; lia.
Qed.

Lemma run_fields_ext (sv sv' : list QPointF -> Z -> Z) (ion : Z)
  (ride ride' : RideFile) :
  last_sec ride' = last_sec ride -> thresholds ride' = thresholds ride ->
  (forall i, 0 <= i < last_sec ride -> series_of sv ride i = series_of sv' ride' i) ->
  values (run sv' ion ride') = values (run sv ion ride)
  /\ xvalues (run sv' ion ride') = xvalues (run sv ion ride)
  /\ matches (run sv' ion ride') = matches (run sv ion ride)
  /\ mvalues (run sv' ion ride') = mvalues (run sv ion ride)
  /\ mxvalues (run sv' ion ride') = mxvalues (run sv ion ride)
  /\ minY (run sv' ion ride') = minY (run sv ion ride)
  /\ maxY (run sv' ion ride') = maxY (run sv ion ride)
  /\ CP (run sv' ion ride') = CP (run sv ion ride)
  /\ WPRIME (run sv' ion ride') = WPRIME (run sv ion ride)
  /\ TAU (run sv' ion ride') = TAU (run sv ion ride).
Proof.
  intros Hl Ht Hag; unfold run.
  cbn [values xvalues matches mvalues mxvalues minY maxY CP WPRIME TAU].
  rewrite Hl, Ht.
  rewrite <- (extract_ext _ _ _ _ Hag), <- (fill_arrays_ext _ _ _ Hag).
  repeat split; reflexivity.
Qed.

(** C10, as amended: on a non-degenerate input the interpolated series is
    never read at [last].  The excess array and the raw array hold 0 there;
    the smoothed array holds 0 there when it is filled, and after the
    backward pass the mean of the 25 seconds before [last] (0 on a run of
    fewer than 26 seconds).  Every returned match starts, stops and is closed
    at a second below [last].  And the whole result is the same for two
    rides and interpolants with the same [last], the same thresholds and the
    same interpolated values at the seconds below [last], whatever is
    recorded or interpolated at [last]. *)
Theorem series_never_read_at_last (sv sv' : list QPointF -> Z -> Z)
  (ion : Z) (w w' : WPrime) (ride ride' : RideFile) :
  dataPoints ride <> [] -> wattsPresent ride = true ->
  dataPoints ride' <> [] -> wattsPresent ride' = true ->
  last_sec ride' = last_sec ride -> thresholds ride' = thresholds ride ->
  (forall i, 0 <= i < last_sec ride -> series_of sv ride i = series_of sv' ride' i) ->
  let r := setRide sv ion w (Some ride) in
  let r' := setRide sv' ion w' (Some ride') in
  let last := last_sec ride in
  let raw := rawArray_of (series_of sv ride) last in
  let smooth := smoothArray_of (series_of sv ride) last in
  aget 0 (inputArray_of (series_of sv ride) (CP r) last) last = 0
  /\ aget 0 raw last = 0
  /\ aget 0 (fst (fill_arrays (series_of sv ride) last)) last = 0
  /\ aget 0 smooth last
     = (if last <? 25 then 0 else window_sum raw (last - 25) 25 ÷ 25)
  /\ Forall (fun m =>
               0 <= start m < last /\ 0 <= stop m < last
               /\ exists i, stop m < i < last
                            /\ aget 0 smooth i < CP r /\ aget 0 raw i < CP r)
            (matches r)
  /\ values r' = values r /\ xvalues r' = xvalues r
  /\ matches r' = matches r /\ mvalues r' = mvalues r /\ mxvalues r' = mxvalues r
  /\ minY r' = minY r /\ maxY r' = maxY r
  /\ CP r' = CP r /\ WPRIME r' = WPRIME r /\ TAU r' = TAU r.
Proof.
  intros Hd Hw Hd' Hw' Hl Ht Hag; cbv zeta.
  rewrite (setRide_run sv ion w ride Hd Hw), (setRide_run sv' ion w' ride' Hd' Hw').
  destruct (arrays_zero_at_last (series_of sv ride) (CP (run sv ion ride))
                                (last_sec ride)) as (Ha & Hb & Hc).
  split; [exact Ha|split; [exact Hc|split; [exact Hb|split; [|split]]]].
  - apply smoothArray_at_last.
  - eapply Forall_impl; [|apply run_matches_ok].
    intros m (H1 & H2 & _ & _ & _ & _ & _ & i & Hi & Hs & Hr).
    repeat split; try lia.
    exists i; repeat split; try assumption; lia.
  - apply run_fields_ext; assumption.
Qed.

Lemma series_never_read_at_last_witness :
  let r := setRide knot_value 0 WPrime_new (Some surge_ride) in
  let r' := setRide spiked_value 0 WPrime_new (Some surge_ride_hot) in
  dataPoints surge_ride <> [] /\ wattsPresent surge_ride = true
  /\ dataPoints surge_ride_hot <> [] /\ wattsPresent surge_ride_hot = true
  /\ last_sec surge_ride_hot = last_sec surge_ride
  /\ thresholds surge_ride_hot = thresholds surge_ride
  /\ (forall i, 0 <= i < last_sec surge_ride ->
        series_of knot_value surge_ride i = series_of spiked_value surge_ride_hot i)
  /\ series_of knot_value surge_ride 3 <> series_of spiked_value surge_ride_hot 3
  /\ values r' = values r /\ matches r' = matches r
  /\ minY r' = minY r /\ TAU r' = TAU r.
Proof.
  cbv zeta.
  assert (H1 : dataPoints surge_ride <> []) by discriminate.
  assert (H2 : wattsPresent surge_ride = true) by reflexivity.
  assert (H3 : dataPoints surge_ride_hot <> []) by discriminate.
  assert (H4 : wattsPresent surge_ride_hot = true) by reflexivity.
  assert (H5 : last_sec surge_ride_hot = last_sec surge_ride) by reflexivity.
  assert (H6 : thresholds surge_ride_hot = thresholds surge_ride) by reflexivity.
  assert (H7 : forall i, 0 <= i < last_sec surge_ride ->
        series_of knot_value surge_ride i = series_of spiked_value surge_ride_hot i).
  { intros i Hi; change (last_sec surge_ride) with 3 in Hi.
    assert (Hc : i = 0 \/ i = 1 \/ i = 2) by lia.
    destruct Hc as [->|[->| ->]]; reflexivity. }
  destruct (series_never_read_at_last knot_value spiked_value 0 WPrime_new WPrime_new
              surge_ride surge_ride_hot H1 H2 H3 H4 H5 H6 H7)
    as (_ & _ & _ & _ & _ & Hv & _ & Hm & _ & _ & Hmin & _ & _ & _ & Htau).
  split; [exact H1|split; [exact H2|split; [exact H3|split; [exact H4|]]]].
  split; [exact H5|split; [exact H6|split; [exact H7|split; [discriminate|]]]].
  split; [exact Hv|split; [exact Hm|split; [exact Hmin|exact Htau]]].
Defined.

(** C10 as it is worded fails for the smoothed array: on the ride with 100 W
    at each of the seconds 0..25 the backward pass stores 100 at index
    [last] = 25, the mean of the 25 seconds before it, not 0. *)
Lemma smoothed_array_at_last_counterexample :
  last_sec steady26_ride = 25
  /\ aget 0 (fst (fill_arrays (series_of knot_value steady26_ride) 25)) 25 = 0
  /\ aget 0 (smoothArray_of (series_of knot_value steady26_ride)
                            (last_sec steady26_ride))
            (last_sec steady26_ride) = 100
  /\ aget 0 (smoothArray_of (series_of knot_value steady26_ride)
                            (last_sec steady26_ride))
            (last_sec steady26_ride) <> 0.
Proof.
  split; [reflexivity|split; [vm_compute; reflexivity|]].
  assert (H : aget 0 (smoothArray_of (series_of knot_value steady26_ride)
                                     (last_sec steady26_ride))
                   (last_sec steady26_ride) = 100) by (vm_compute; reflexivity).
  split; [exact H|rewrite H; discriminate].
Qed.
